(** * Cache-aware ingestion-and-retrieval pipeline and its editor front end

    A shallow embedding of the RooCode repository.  The editor extension
    ([vscode-extension/src/extension.ts]) is embedded from its TypeScript
    source.  The pipeline components treated here (CacheStore,
    ChangeWatcher, ContextBuilder) exist in the available sources only as
    design documents and class declarations; they are embedded from the
    written specification and every such definition says so in its
    documentation comment. *)

From Stdlib Require Import ZArith QArith Qround Lia.
From stdpp Require Import base option list strings gmap sorting.

Local Open Scope string_scope.
Local Open Scope list_scope.
Local Open Scope nat_scope.

(** ** Characters that cannot be written inside a string literal *)

Definition nl : string := String (Ascii.ascii_of_nat 10) EmptyString.
Definition dq : string := String (Ascii.ascii_of_nat 34) EmptyString.

(** [cat] glues the pieces of a multi-line template literal. *)
Definition cat (pieces : list string) : string :=
  foldr String.app EmptyString pieces.

(** * The editor extension: [extension.ts] *)

Module Extension.

(** ** Module-level state and the effects on the language client

    [let client: LanguageClient;] is a module-level binding that holds
    [undefined] until [activate] assigns it. *)

Record LanguageClient := {
  lc_id : string;
  lc_name : string;
  lc_command : string;
}.

(** The operations the extension invokes on a client object. *)
Inductive client_call :=
  | CallStart (c : LanguageClient)
  | CallStop (c : LanguageClient)
  | CallSendRequest (c : LanguageClient) (method : string).

(** The thenable a client operation hands back, identified by the call that
    produced it. *)
Inductive thenable :=
  | PromiseOf (call : client_call).

Record module_state := { client : option LanguageClient }.

Definition initial_state : module_state := {| client := None |}.

(** A computation reads and writes the module state and logs the client
    operations it invokes, in order. *)
Definition Eff (A : Type) : Type :=
  module_state → A * module_state * list client_call.

Definition eret {A} (a : A) : Eff A := λ st, (a, st, []).

Definition ebind {A B} (m : Eff A) (k : A → Eff B) : Eff B :=
  λ st, let '(a, st1, t1) := m st in
        let '(b, st2, t2) := k a st1 in
        (b, st2, t1 ++ t2).

#[export] Instance eff_ret : MRet Eff := @eret.
#[export] Instance eff_bind : MBind Eff := λ A B k m, ebind m k.

Definition read_client : Eff (option LanguageClient) :=
  λ st, (client st, st, []).

Definition assign_client (c : LanguageClient) : Eff unit :=
  λ _, (tt, {| client := Some c |}, []).

Definition invoke (call : client_call) : Eff thenable :=
  λ st, (PromiseOf call, st, [call]).

(** ** The host of [activate]

    The setting [activate] reads and the two host steps that can fail
    before the commands are registered.  [activate] itself is embedded
    with [Activation.activate] below. *)

Record host := {
  pythonPath : option string;       (* roocode.pythonPath setting *)
  watcher_throws : bool;            (* createFileSystemWatcher *)
  start_rejects : bool;             (* await client.start() *)
}.

(** [get('pythonPath') || 'python']: an unset or empty setting is falsy. *)
Definition python_command (h : host) : string :=
  match pythonPath h with
  | None | Some EmptyString => "python"
  | Some path => path
  end.

(** ** [deactivate]

    [if (!client) { return undefined; } return client.stop();]  A client
    object is truthy, so the test fails exactly when the binding is unset. *)

Definition deactivate : Eff (option thenable) :=
  c ← read_client;
  match c with
  | None => mret None
  | Some cl => p ← invoke (CallStop cl); mret (Some p)
  end.

(** ** [formatSearchResults]

    The argument is typed [any]; the embedding covers the arrays of
    [SearchResult] objects of [types/progress.d.ts].  Number formatting is
    the platform's [Number.prototype.toFixed]. *)

Section Format.

Variable number : Type.
Variable toFixed : number → nat → string.

Record SearchResult := {
  text : string;
  source : string;
  relevance : number;
}.

(** [Array.prototype.join]. *)
Fixpoint join (sep : string) (parts : list string) : string :=
  match parts with
  | [] => EmptyString
  | [p] => p
  | p :: rest => p +:+ sep +:+ join sep rest
  end.

Definition page_head : string := cat [
  nl; "        <!DOCTYPE html>";
  nl; "        <html>";
  nl; "        <head>";
  nl; "            <style>";
  nl; "                body { font-family: var(--vscode-editor-font-family); }";
  nl; "                .result { margin: 1em 0; padding: 1em; background: var(--vscode-editor-background); }";
  nl; "                .source { color: var(--vscode-textLink-foreground); }";
  nl; "                .relevance { color: var(--vscode-textPreformat-foreground); }";
  nl; "            </style>";
  nl; "        </head>";
  nl; "        <body>";
  nl; "            <h2>Search Results</h2>";
  nl; "            " ].

Definition page_foot : string := cat [
  nl; "        </body>";
  nl; "        </html>";
  nl; "    " ].

Definition block_open : string := cat [
  nl; "                <div class="; dq; "result"; dq; ">";
  nl; "                    <div class="; dq; "content"; dq; ">" ].

Definition block_source : string := cat [
  "</div>";
  nl; "                    <div class="; dq; "source"; dq; ">Source: " ].

Definition block_relevance : string := cat [
  "</div>";
  nl; "                    <div class="; dq; "relevance"; dq; ">Relevance: " ].

Definition block_close : string := cat [
  "</div>";
  nl; "                </div>";
  nl; "            " ].

(** The inner template literal, one per element. *)
Definition render (result : SearchResult) : string :=
  block_open +:+ text result +:+
  block_source +:+ source result +:+
  block_relevance +:+ toFixed (relevance result) 2 +:+
  block_close.

Definition formatSearchResults (results : list SearchResult) : string :=
  page_head +:+ join EmptyString (map render results) +:+ page_foot.

(** What it means for [b] to be the result block of [r]: the fixed markup
    around the element's text, its source and its relevance with two
    fraction digits. *)
Definition block_of (r : SearchResult) (b : string) : Prop :=
  b = block_open +:+ text r +:+ block_source +:+ source r +:+
      block_relevance +:+ toFixed (relevance r) 2 +:+ block_close.

End Format.

End Extension.

(** * The ingestion-and-retrieval pipeline *)

(** ** Data model (specification, section 3)

    Modelled from the spec: the records of the pipeline are declared in none
    of the available sources; the fields follow section 3. *)

Module Data.

Definition file_id := string.
Definition chunk_id := string.
Definition timestamp := Z.

(** Modelled from the spec: RemoteFile, {id, name, remote-checksum,
    remote-modified-time}. *)
Record RemoteFile := {
  rf_id : file_id;
  rf_name : string;
  remote_checksum : string;
  remote_modified_time : timestamp;
}.

(** Modelled from the spec: CacheEntry, {file-id, local-path, checksum,
    fetched-at, ttl-expires-at}. *)
Record CacheEntry := {
  ce_file_id : file_id;
  local_path : string;
  checksum : string;
  fetched_at : timestamp;
  ttl_expires_at : timestamp;
}.

(** Modelled from the spec: Manifest, a mapping file-id to CacheEntry. *)
Abbreviation Manifest := (gmap file_id CacheEntry).

(** Modelled from the spec: metadata, a mapping of strings to a closed set
    of scalar variants (string, number, timestamp, boolean). *)
Inductive scalar :=
  | SString (s : string)
  | SNumber (n : Z)
  | STimestamp (t : timestamp)
  | SBool (b : bool).

Abbreviation Metadata := (gmap string scalar).

End Data.

(** ** CacheStore (specification, section 4.1) *)

Module CacheStore.
Import Data.

(** Modelled from the spec: the CacheStore implementation is not among the
    available sources.  [is-fresh(file-id) -> bool], true iff an entry exists
    and [now < ttl-expires-at]; the clock reading is passed in. *)
Definition is_fresh (now : timestamp) (manifest : Manifest) (id : file_id) : bool :=
  match manifest !! id with
  | Some entry => (now <? ttl_expires_at entry)%Z
  | None => false
  end.

(** The cache strategy flowchart of the Phase 2 design: on a file request,
    is the file cached?  If so, is it within its validity period?  Then the
    cache is used; in every other case the file is downloaded, stored and
    its metadata updated. *)
Inductive cache_action := UseCache | Download.

Definition on_file_request (now : timestamp) (manifest : Manifest) (id : file_id)
  : cache_action :=
  match manifest !! id with
  | Some entry =>
      if (now <? ttl_expires_at entry)%Z then UseCache else Download
  | None => Download
  end.

End CacheStore.

(** ** ChangeWatcher (specification, section 4.2) *)

Module ChangeWatcher.
Import Data.

(** Modelled from the spec: the classes of a remote file. *)
Inductive change_class := New | Updated | Unchanged.

(** Modelled from the spec: the ChangeWatcher implementation is not among
    the available sources.  The classification rule for one remote file:
    [unchanged] if a CacheEntry exists and the checksums agree, [updated] if
    an entry exists with a different checksum, [new] if no entry exists. *)
Definition classify (manifest : Manifest) (f : RemoteFile) : change_class :=
  match manifest !! rf_id f with
  | None => New
  | Some entry =>
      if bool_decide (remote_checksum f = checksum entry) then Unchanged
      else Updated
  end.

(** [is_class manifest c f]: the rule puts [f] in class [c]. *)
Definition is_class (manifest : Manifest) (c : change_class) (f : RemoteFile) : bool :=
  match classify manifest f, c with
  | New, New | Updated, Updated | Unchanged, Unchanged => true
  | _, _ => false
  end.

(** Modelled from the spec: the result of [diff], {new, updated, deleted,
    unchanged}; remote files for the first two and the last, cached file
    ids for [deleted]. *)
Record Diff := {
  new : list RemoteFile;
  updated : list RemoteFile;
  deleted : list file_id;
  unchanged : list RemoteFile;
}.

(** Modelled from the spec: [diff(remote-listing, manifest)].  Each remote
    file goes to the class the rule gives it; a cached file is [deleted]
    when no remote file of the listing carries its id. *)
Definition diff (listing : list RemoteFile) (manifest : Manifest) : Diff :=
  {| new := filter (λ f, is_class manifest New f = true) listing;
     updated := filter (λ f, is_class manifest Updated f = true) listing;
     deleted := filter (λ id, id ∉ rf_id <$> listing) (map_to_list manifest).*1;
     unchanged := filter (λ f, is_class manifest Unchanged f = true) listing |}.

(** The file ids placed in each class, and all of them in class order. *)
Definition new_ids (d : Diff) : list file_id := rf_id <$> new d.
Definition updated_ids (d : Diff) : list file_id := rf_id <$> updated d.
Definition unchanged_ids (d : Diff) : list file_id := rf_id <$> unchanged d.

Definition classified_ids (d : Diff) : list file_id :=
  new_ids d ++ updated_ids d ++ deleted d ++ unchanged_ids d.

(** Modelled from the spec: what the classification rule asks of any
    result [d] for a listing and a manifest, whichever way it is computed:
    an id is [unchanged] iff a listed file of that id has the checksum of
    its entry, [updated] iff a listed file of that id has an entry with
    another checksum, [new] iff it is listed without an entry. *)
Definition follows_rule (d : Diff) (listing : list RemoteFile) (manifest : Manifest)
  : Prop :=
  (∀ id, id ∈ unchanged_ids d
         ↔ ∃ f e, f ∈ listing ∧ rf_id f = id ∧ manifest !! id = Some e
                  ∧ remote_checksum f = checksum e)
  ∧ (∀ id, id ∈ updated_ids d
           ↔ ∃ f e, f ∈ listing ∧ rf_id f = id ∧ manifest !! id = Some e
                    ∧ remote_checksum f ≠ checksum e)
  ∧ (∀ id, id ∈ new_ids d
           ↔ ∃ f, f ∈ listing ∧ rf_id f = id ∧ manifest !! id = None).

End ChangeWatcher.


(** Sample pass: file A is cached with the same checksum, B with another,
    C is not cached, and the cached D is no longer listed. *)
Module WatcherSamples.
Import Data.

Definition remote (id sum : string) : RemoteFile :=
  {| rf_id := id; rf_name := id +:+ ".pdf"; remote_checksum := sum;
     remote_modified_time := 1000%Z |}.

Definition cached (id sum : string) : CacheEntry :=
  {| ce_file_id := id; local_path := "cache/pdf/" +:+ id; checksum := sum;
     fetched_at := 900%Z; ttl_expires_at := (900 + 86400)%Z |}.

Definition listing : list RemoteFile :=
  [remote "A" "c1"; remote "B" "c2"; remote "C" "c3"].

Definition manifest : Manifest :=
  {[ "A" := cached "A" "c1"; "B" := cached "B" "old"; "D" := cached "D" "c4" ]}.

(** A listing that carries the id A twice, once with the cached checksum
    and once with another, over a manifest that caches A. *)
Definition twice_listed : list RemoteFile :=
  [remote "A" "c1"; remote "A" "c2"].

Definition one_cached : Manifest := {[ "A" := cached "A" "c1" ]}.

End WatcherSamples.

(** ** ContextBuilder (specification, section 4.6) *)

Module ContextBuilder.
Import Data.

Section Builder.

(** Modelled from the spec: the ContextBuilder implementation is not among
    the available sources, only the method signatures of the Phase 3 plan.
    The tokenizer is outside the specification, so a text is given by the
    sequence of its tokens: its token count is the length of the sequence,
    and truncating it to a budget keeps that many leading tokens.  The
    builder never reads a score.  The near-duplicate test (similarity above
    a fixed threshold, which the specification leaves open) is a
    parameter. *)
Variable token : Type.
Variable score : Type.
Variable near_duplicate : list token → list token → bool.

(** Modelled from the spec: SearchResult, {chunk-id, text, score,
    source-metadata, rank}. *)
Record SearchResult := {
  sr_chunk_id : chunk_id;
  sr_text : list token;
  sr_score : score;
  sr_metadata : Metadata;
  sr_rank : nat;
}.

(** Modelled from the spec: a source citation; [truncated] is the flag of
    the single-chunk-overflow fallback. *)
Record Citation := {
  cited_chunk : chunk_id;
  cited_metadata : Metadata;
  cited_rank : nat;
  truncated : bool;
}.

(** Modelled from the spec: Context, {ordered chunk texts,
    total-token-count, source-citations}. *)
Record Context := {
  texts : list (list token);
  total_token_count : nat;
  source_citations : list Citation;
}.

Definition cite (r : SearchResult) (flag : bool) : Citation :=
  {| cited_chunk := sr_chunk_id r; cited_metadata := sr_metadata r;
     cited_rank := sr_rank r; truncated := flag |}.

Definition empty : Context :=
  {| texts := []; total_token_count := 0; source_citations := [] |}.

Definition include (ctx : Context) (t : list token) (c : Citation) : Context :=
  {| texts := texts ctx ++ [t];
     total_token_count := total_token_count ctx + length t;
     source_citations := source_citations ctx ++ [c] |}.

(** Modelled from the spec: one step of the walk.  A near-duplicate of an
    included text is skipped; a chunk is included only if its full text fits
    the remaining budget, and is skipped otherwise. *)
Definition offer (max_tokens : nat) (ctx : Context) (r : SearchResult) : Context :=
  if existsb (near_duplicate (sr_text r)) (texts ctx) then ctx
  else if total_token_count ctx + length (sr_text r) <=? max_tokens
  then include ctx (sr_text r) (cite r false)
  else ctx.

(** Modelled from the spec: the highest-ranked chunk is truncated to the
    budget, and flagged, if it alone exceeds max-tokens. *)
Definition offer_first (max_tokens : nat) (r : SearchResult) : Context :=
  if max_tokens <? length (sr_text r)
  then include empty (take max_tokens (sr_text r)) (cite r true)
  else offer max_tokens empty r.

(** Modelled from the spec: results are walked in rank order. *)
Definition by_rank (a b : SearchResult) : Prop := sr_rank a ≤ sr_rank b.

#[export] Instance by_rank_dec : RelDecision by_rank.
Proof. intros a b. unfold by_rank. apply _. Defined.

Definition in_rank_order (results : list SearchResult) : list SearchResult :=
  merge_sort by_rank results.

(** Modelled from the spec: the walk over the results in rank order. *)
Definition assemble (results : list SearchResult) (max_tokens : nat) : Context :=
  match in_rank_order results with
  | [] => empty
  | r :: rest => foldl (offer max_tokens) (offer_first max_tokens r) rest
  end.

(** Modelled from the spec: the error of the taxonomy (section 7). *)
Inductive build_error := BudgetExceededError.

(** Modelled from the spec: [build(query, SearchResult[], max-tokens)].  The
    final guard is the one place where a BudgetExceededError could arise. *)
Definition build (query : string) (results : list SearchResult) (max_tokens : nat)
  : build_error + Context :=
  let ctx := assemble results max_tokens in
  if total_token_count ctx <=? max_tokens then inr ctx
  else inl BudgetExceededError.

(** *** Reading the input, independently of the walk

    [highest_ranked results r]: no result has a rank before that of [r].
    [sole_highest_ranked results r]: every other result ranks strictly
    after [r], so that [r] is the highest-ranked chunk whatever order
    the results are handed over in. *)
Definition highest_ranked (results : list SearchResult) (r : SearchResult) : Prop :=
  r ∈ results ∧ ∀ r', r' ∈ results → sr_rank r ≤ sr_rank r'.

Definition sole_highest_ranked (results : list SearchResult) (r : SearchResult)
  : Prop :=
  r ∈ results ∧ ∀ r', r' ∈ results → r' = r ∨ sr_rank r < sr_rank r'.

(** What a text of the context and its citation owe to the input: the text
    of a search result as it is, or, flagged, a highest-ranked result
    truncated to the budget it alone exceeds. *)
Definition justified (results : list SearchResult) (max_tokens : nat)
    (t : list token) (c : Citation) : Prop :=
  ∃ r, r ∈ results ∧ c = cite r (truncated c) ∧
    if truncated c
    then highest_ranked results r ∧ max_tokens < length (sr_text r)
         ∧ t = take max_tokens (sr_text r)
    else t = sr_text r.

(** The invariant of the walk. *)
Definition sound (results : list SearchResult) (max_tokens : nat) (ctx : Context)
  : Prop :=
  total_token_count ctx ≤ max_tokens
  ∧ total_token_count ctx = sum_list (length <$> texts ctx)
  ∧ Forall2 (justified results max_tokens) (texts ctx) (source_citations ctx).

End Builder.

Arguments sr_chunk_id {token score} _.
Arguments sr_text {token score} _.
Arguments sr_score {token score} _.
Arguments sr_metadata {token score} _.
Arguments sr_rank {token score} _.
Arguments texts {token} _.
Arguments total_token_count {token} _.
Arguments source_citations {token} _.

End ContextBuilder.

(** Sample builder input: texts are word sequences, scores are not used,
    and only equal texts count as near-duplicates. *)
Module BuilderSamples.
Import Data.

Definition same_text (a b : list string) : bool := bool_decide (a = b).

Definition result (id : string) (text : list string) (rank : nat)
  : ContextBuilder.SearchResult string unit :=
  {| ContextBuilder.sr_chunk_id := id; ContextBuilder.sr_text := text;
     ContextBuilder.sr_score := tt; ContextBuilder.sr_metadata := ∅;
     ContextBuilder.sr_rank := rank |}.

(** The answer ranked second is handed over first. *)
Definition results : list (ContextBuilder.SearchResult string unit) :=
  [result "k2" ["ok"] 1;
   result "k1" ["refunds"; "are"; "issued"; "within"; "thirty"; "days"] 0].

End BuilderSamples.
(** * The command handlers of the extension: [extension.ts], lines 8 to 130

    The handlers receive values of type [any] from the language server and
    talk to the editor host.  Their embedding needs the values of the
    scripting language, the host calls with their outcomes, and exceptions. *)

(** ** Values that cross the request boundary *)

Module Script.

Section Values.

(** Numbers and their platform operations: [Number.prototype.toFixed],
    [Number::toString] and the truthiness of a number. *)
Variable number : Type.
Variable toFixed : number → nat → string.
Variable number_to_string : number → string.
Variable number_truthy : number → bool.

(** A request result is a parsed JSON text, or [undefined]; the fields of an
    object are its own properties. *)
Inductive value :=
  | VUndefined
  | VNull
  | VBool (b : bool)
  | VNum (n : number)
  | VStr (s : string)
  | VArr (elems : list value)
  | VObj (fields : gmap string value).

(** What is thrown: a TypeError of the engine, named by the operation that
    failed, or the error a host call was rejected with. *)
Inductive js_error :=
  | TypeError (operation : string)
  | HostError (name message : string).

(** ToBoolean, as used by [if (response)], [!text] and [||]. *)
Definition truthy (v : value) : bool :=
  match v with
  | VUndefined | VNull => false
  | VBool b => b
  | VNum n => number_truthy n
  | VStr EmptyString => false
  | VStr _ => true
  | VArr _ | VObj _ => true
  end.

(** ToString, as applied by a template literal.  An object is converted
    by its [toString]: the inherited one gives [[object Object]]; an own
    property of that name holds a parsed value, which is not callable, and
    neither its own nor the inherited [valueOf] yields a primitive, so the
    conversion throws.  An array joins the strings of its elements with a
    comma, [null] and [undefined] elements giving the empty string, and
    throws where an element does. *)
Fixpoint to_string (v : value) : js_error + string :=
  match v with
  | VUndefined => inr "undefined"
  | VNull => inr "null"
  | VBool true => inr "true"
  | VBool false => inr "false"
  | VNum n => inr (number_to_string n)
  | VStr s => inr s
  | VArr elems =>
      match
        (fix strings (l : list value) : js_error + list string :=
           match l with
           | [] => inr []
           | e :: l' =>
               match (match e with
                      | VUndefined | VNull => inr EmptyString
                      | _ => to_string e
                      end) with
               | inl err => inl err
               | inr s =>
                   match strings l' with
                   | inl err => inl err
                   | inr ss => inr (s :: ss)
                   end
               end
           end) elems
      with
      | inl err => inl err
      | inr parts => inr (Extension.join "," parts)
      end
  | VObj fields =>
      match fields !! "toString" with
      | Some _ => inl (TypeError "convert object to primitive value")
      | None => inr "[object Object]"
      end
  end.

(** The strings an array joins, element by element. *)
Definition element_to_string (e : value) : js_error + string :=
  match e with
  | VUndefined | VNull => inr EmptyString
  | _ => to_string e
  end.

Fixpoint to_strings (l : list value) : js_error + list string :=
  match l with
  | [] => inr []
  | e :: l' =>
      match element_to_string e with
      | inl err => inl err
      | inr s =>
          match to_strings l' with
          | inl err => inl err
          | inr ss => inr (s :: ss)
          end
      end
  end.

(** A value that converts to a string: no object with an own [toString]
    property is reached through arrays. *)
Fixpoint printable (v : value) : bool :=
  match v with
  | VArr elems => forallb printable elems
  | VObj fields => bool_decide (fields !! "toString" = None)
  | _ => true
  end.

(** Reading one of the properties this code reads ([text], [source],
    [relevance]), none of which a built-in prototype defines: it throws on
    [undefined] and [null], finds own properties of an object, and is
    [undefined] on everything else. *)
Definition get (v : value) (key : string) : js_error + value :=
  match v with
  | VUndefined | VNull => inl (TypeError ("read " +:+ key))
  | VObj fields => inr (default VUndefined (fields !! key))
  | _ => inr VUndefined
  end.

(** [x.toFixed(2)]: only a number has the method. *)
Definition call_toFixed (v : value) : js_error + string :=
  match v with
  | VNum n => inr (toFixed n 2)
  | VUndefined | VNull => inl (TypeError "read toFixed")
  | _ => inl (TypeError "call toFixed")
  end.

(** The inner template literal of [formatSearchResults] on a [result] of
    type [any]; each expression is evaluated and converted to a string
    before the next one is evaluated, from left to right. *)
Definition render_any (result : value) : js_error + string :=
  match get result "text" with
  | inl e => inl e
  | inr text =>
      match to_string text with
      | inl e => inl e
      | inr text_string =>
          match get result "source" with
          | inl e => inl e
          | inr source =>
              match to_string source with
              | inl e => inl e
              | inr source_string =>
                  match get result "relevance" with
                  | inl e => inl e
                  | inr relevance =>
                      match call_toFixed relevance with
                      | inl e => inl e
                      | inr fixed =>
                          inr (Extension.block_open +:+ text_string +:+
                               Extension.block_source +:+ source_string +:+
                               Extension.block_relevance +:+ fixed +:+
                               Extension.block_close)
                      end
                  end
              end
          end
      end
  end.

(** [Array.prototype.map] with a callback that may throw: the first
    exception ends the traversal. *)
Fixpoint map_throwing {A B} (f : A → js_error + B) (l : list A) : js_error + list B :=
  match l with
  | [] => inr []
  | x :: l' =>
      match f x with
      | inl e => inl e
      | inr y =>
          match map_throwing f l' with
          | inl e => inl e
          | inr ys => inr (y :: ys)
          end
      end
  end.

(** [formatSearchResults(results: any)]: [results.map] exists on arrays
    only. *)
Definition formatSearchResults_any (results : value) : js_error + string :=
  match results with
  | VArr elems =>
      match map_throwing render_any elems with
      | inl e => inl e
      | inr blocks =>
          inr (Extension.page_head +:+ Extension.join EmptyString blocks
               +:+ Extension.page_foot)
      end
  | VUndefined | VNull => inl (TypeError "read map")
  | _ => inl (TypeError "call map")
  end.

(** A [SearchResult] object as the server sends it. *)
Definition encode (r : Extension.SearchResult number) : value :=
  VObj {[ "text" := VStr (Extension.text number r);
          "source" := VStr (Extension.source number r);
          "relevance" := VNum (Extension.relevance number r) ]}.

(** An element [formatSearchResults] can render: an object whose [text]
    and [source], missing or not, convert to strings and whose [relevance]
    is a number. *)
Definition renderable (v : value) : Prop :=
  ∃ fields n,
    v = VObj fields
    ∧ printable (default VUndefined (fields !! "text")) = true
    ∧ printable (default VUndefined (fields !! "source")) = true
    ∧ fields !! "relevance" = Some (VNum n).

End Values.

Arguments VUndefined {number}.
Arguments VNull {number}.
Arguments VBool {number} b.
Arguments VNum {number} n.
Arguments VStr {number} s.
Arguments VArr {number} elems.
Arguments VObj {number} fields.

End Script.

(** ** Host calls, their outcomes, and the two commands *)

Module Handlers.

Section Commands.

Variable number : Type.
Variable toFixed : number → nat → string.
Variable number_to_string : number → string.
Variable number_truthy : number → bool.

Local Abbreviation value := (Script.value number).
Local Abbreviation truthy := (Script.truthy number number_truthy).
Local Abbreviation formatSearchResults_any :=
  (Script.formatSearchResults_any number toFixed number_to_string).

(** ToString of a thrown value, as a template literal computes it. *)
Variable describe : Script.js_error → string.

(** The active text editor: its document, and its selection as a pair of
    offsets into the document, start first. *)
Record editor := {
  document_text : string;
  language_id : string;
  selection_start : nat;
  selection_end : nat;
}.

(** [editor.document.getText(editor.selection)]. *)
Definition selected_text (ed : editor) : string :=
  String.substring (selection_start ed) (selection_end ed - selection_start ed)
    (document_text ed).

(** What a command does to the outside, in order. *)
Inductive effect :=
  | ShowWarningMessage (message : string)
  | ShowErrorMessage (message : string)
  | ShowInputBox (prompt : string)
  | WithProgress (title : string)
  | SendRequest (method : string) (params : value)
  | CreateWebviewPanel (view_type title : string)
  | SetWebviewHtml (html : string)
  | EditInsert (offset : nat) (text : value).

(** The answers of the host: whether an editor is active, and how each
    awaited call settles.  [window.showInputBox] resolves to the text typed
    or to [undefined] when dismissed; [editor.edit] resolves to whether the
    edit was applied. *)
Record window_host := {
  active_editor : option editor;
  progress_fails : option Script.js_error;
  input_box : Script.js_error + option string;
  reply : string → value → Script.js_error + value;
  edit_outcome : Script.js_error + bool;
}.

(** A command run: the effects so far, and a value or the exception that
    ended the run. *)
Definition Run (A : Type) : Type := list effect * (Script.js_error + A).

Definition run_ret {A} (a : A) : Run A := ([], inr a).

Definition run_bind {A B} (m : Run A) (k : A → Run B) : Run B :=
  match m with
  | (t, inl e) => (t, inl e)
  | (t, inr a) => let '(t', r) := k a in (t ++ t', r)
  end.

#[export] Instance run_mret : MRet Run := @run_ret.
#[export] Instance run_mbind : MBind Run := λ A B k m, run_bind m k.

Definition emit (e : effect) : Run unit := ([e], inr tt).

Definition throw {A} (e : Script.js_error) : Run A := ([], inl e).

Definition settle {A} (outcome : Script.js_error + A) : Run A := ([], outcome).

(** [try { body } catch (error) { handler }]. *)
Definition try_catch {A} (body : Run A) (handler : Script.js_error → Run A) : Run A :=
  match body with
  | (t, inl e) => let '(t', r) := handler e in (t ++ t', r)
  | (t, inr a) => (t, inr a)
  end.

Definition show_input_box (h : window_host) (prompt : string) : Run (option string) :=
  _ ← emit (ShowInputBox prompt); settle (input_box h).

Definition send_request (h : window_host) (method : string) (params : value)
  : Run value :=
  _ ← emit (SendRequest method params); settle (reply h method params).

(** [window.withProgress(options, task)]: the call fails before the task
    is started, or starts it and hands back its promise. *)
Definition with_progress {A} (h : window_host) (title : string) (task : Run A)
  : Run A :=
  _ ← emit (WithProgress title);
  match progress_fails h with
  | Some e => throw e
  | None => task
  end.

(** [text || await window.showInputBox({ prompt: 'Enter search query' })]. *)
Definition search_query (h : window_host) (text : string) : Run value :=
  match text with
  | EmptyString =>
      answer ← show_input_box h "Enter search query";
      mret (from_option Script.VStr Script.VUndefined answer)
  | _ => mret (Script.VStr text)
  end.

(** The task run under the progress notification. *)
Definition search_task (h : window_host) (text : string) : Run unit :=
  try_catch
    (query ← search_query h text;
     response ← send_request h "roocode/search" (Script.VObj {[ "query" := query ]});
     if truthy response then
       _ ← emit (CreateWebviewPanel "roocodeResults" "RooCode Search Results");
       html ← settle (formatSearchResults_any response);
       emit (SetWebviewHtml html)
     else mret tt)
    (λ error, emit (ShowErrorMessage ("Search failed: " +:+ describe error))).

(** The handler of [roocode.searchDocs]. *)
Definition searchDocs (h : window_host) : Run unit :=
  try_catch
    (match active_editor h with
     | None => emit (ShowWarningMessage "No active editor")
     | Some ed =>
         with_progress h "Searching documentation..."
           (search_task h (selected_text ed))
     end)
    (λ error,
       emit (ShowErrorMessage ("Command execution failed: " +:+ describe error))).

(** [editor.edit(editBuilder => editBuilder.insert(position, text))]. *)
Definition edit_insert (h : window_host) (offset : nat) (text : value) : Run unit :=
  _ ← emit (EditInsert offset text);
  _ ← settle (edit_outcome h);
  mret tt.

(** The handler of [roocode.generateDocs]. *)
Definition generateDocs (h : window_host) : Run unit :=
  try_catch
    (match active_editor h with
     | None => emit (ShowWarningMessage "No active editor")
     | Some ed =>
         match selected_text ed with
         | EmptyString => emit (ShowWarningMessage "No text selected")
         | text =>
             response ← send_request h "roocode/generate"
               (Script.VObj {[ "code" := Script.VStr text;
                               "language" := Script.VStr (language_id ed) ]});
             if truthy response
             then edit_insert h (selection_start ed) response
             else mret tt
         end
     end)
    (λ error,
       emit (ShowErrorMessage
               ("Documentation generation failed: " +:+ describe error))).

(** *** Reading a run *)

Definition is_message (e : effect) : bool :=
  match e with
  | ShowWarningMessage _ | ShowErrorMessage _ => true
  | _ => false
  end.

Definition is_request (e : effect) : bool :=
  match e with
  | SendRequest _ _ => true
  | _ => false
  end.

Definition messages (t : list effect) : list effect := filter (λ e, is_message e = true) t.
Definition requests (t : list effect) : list effect := filter (λ e, is_request e = true) t.

(** *** The document after an insertion

    [TextEditorEdit.insert] puts the text at the position, which the host
    clamps to the end of the document. *)
Fixpoint insert_at (offset : nat) (text doc : string) : string :=
  match offset, doc with
  | 0, _ => text +:+ doc
  | S _, EmptyString => text
  | S offset', String a doc' => String a (insert_at offset' text doc')
  end.

(** Removing [len] characters at [offset]. *)
Fixpoint delete_at (offset len : nat) (doc : string) : string :=
  match offset, doc with
  | 0, _ => String.substring len (String.length doc - len) doc
  | S _, EmptyString => EmptyString
  | S offset', String a doc' => String a (delete_at offset' len doc')
  end.

(** The document once [generateDocs] has run.  An insertion that the host
    did not apply leaves it as it was; an applied insertion of a string
    puts the string in.  [insert] is declared for strings only: after an
    applied insertion of any other value the text is not determined. *)
Definition document_after (h : window_host) (ed : editor) (t : list effect)
  : option string :=
  foldl (λ doc e,
           match e, edit_outcome h with
           | EditInsert offset (Script.VStr text), inr true =>
               insert_at offset text <$> doc
           | EditInsert _ _, inr true => None
           | _, _ => doc
           end)
    (Some (document_text ed)) t.

End Commands.

End Handlers.

(** Sample host: integers for numbers, and an editor on a one-line Python
    file with a selection given by its offsets. *)
Module HandlerSamples.

Definition fixed (n : Z) (digits : nat) : string := "0.50".
Definition shown (n : Z) : string := "0".
Definition nonzero (n : Z) : bool := negb (n =? 0)%Z.
Definition described (e : Script.js_error) : string :=
  match e with
  | Script.TypeError operation => "TypeError: " +:+ operation
  | Script.HostError name message => name +:+ ": " +:+ message
  end.

Definition python_editor (first last : nat) : Handlers.editor :=
  {| Handlers.document_text := "def add(a, b): return a + b";
     Handlers.language_id := "python";
     Handlers.selection_start := first;
     Handlers.selection_end := last |}.

(** The server answers every request with [answer]; nothing else fails and
    the input box is dismissed. *)
Definition answering (ed : Handlers.editor) (answer : Script.value Z)
  : Handlers.window_host Z :=
  {| Handlers.active_editor := Some ed;
     Handlers.progress_fails := None;
     Handlers.input_box := inr None;
     Handlers.reply := λ _ _, inr answer;
     Handlers.edit_outcome := inr true |}.

(** The response envelope of [types/progress.d.ts], around no results. *)
Definition envelope : Script.value Z :=
  Script.VObj {[ "success" := Script.VBool true; "data" := Script.VArr [] ]}.

End HandlerSamples.

(** ** [activate]: console, watcher, client, status bar, commands

    The whole body is followed: what is logged and shown, the module
    binding, what [context.subscriptions] receives, and which commands the
    host has registered when the function returns or throws. *)

Module Activation.

Section Activate.

(** ToString of a thrown value, as a template literal computes it. *)
Variable describe : Script.js_error → string.

(** What [context.subscriptions] holds. *)
Inductive disposable :=
  | StatusBarItem
  | Command (id : string).

(** What [activate] does to the outside, in order. *)
Inductive effect :=
  | ConsoleLog (message : string)
  | CreateFileSystemWatcher (glob : string)
  | Client (call : Extension.client_call)
  | ShowStatusBarItem (text tooltip command : string)
  | RegisterCommand (id : string)
  | ShowErrorMessage (message : string).

(** The module binding, the subscriptions of the extension context, and the
    command ids the host has accepted. *)
Record state := {
  binding : Extension.module_state;
  subscriptions : list disposable;
  registered : list string;
}.

(** The host: the settings and the two fallible steps of [Extension.host]
    with the values they throw, and [commands.registerCommand], which
    throws when it refuses an id. *)
Record host := {
  settings : Extension.host;
  watcher_error : Script.js_error;
  start_error : Script.js_error;
  register_refused : string → option Script.js_error;
}.

(** State and exceptions: what was done before a throw stays done. *)
Definition Act (A : Type) : Type :=
  state → state * list effect * (Script.js_error + A).

Definition act_ret {A} (a : A) : Act A := λ st, (st, [], inr a).

Definition act_bind {A B} (m : Act A) (k : A → Act B) : Act B :=
  λ st, match m st with
        | (st1, t1, inl e) => (st1, t1, inl e)
        | (st1, t1, inr a) => let '(st2, t2, r) := k a st1 in (st2, t1 ++ t2, r)
        end.

#[export] Instance act_mret : MRet Act := @act_ret.
#[export] Instance act_mbind : MBind Act := λ A B k m, act_bind m k.

Definition emit (e : effect) : Act unit := λ st, (st, [e], inr tt).

Definition throw {A} (e : Script.js_error) : Act A := λ st, (st, [], inl e).

(** [try { body } catch (error) { handler }]. *)
Definition try_catch {A} (body : Act A) (handler : Script.js_error → Act A)
  : Act A :=
  λ st, match body st with
        | (st1, t1, inl e) =>
            let '(st2, t2, r) := handler e st1 in (st2, t1 ++ t2, r)
        | (st1, t1, inr a) => (st1, t1, inr a)
        end.

(** [client = new LanguageClient(...)]. *)
Definition assign (c : Extension.LanguageClient) : Act unit :=
  λ st, ({| binding := {| Extension.client := Some c |};
            subscriptions := subscriptions st;
            registered := registered st |}, [], inr tt).

(** [context.subscriptions.push(...)]. *)
Definition push (ds : list disposable) : Act unit :=
  λ st, ({| binding := binding st;
            subscriptions := subscriptions st ++ ds;
            registered := registered st |}, [], inr tt).

(** [workspace.createFileSystemWatcher(glob)]. *)
Definition create_watcher (h : host) (glob : string) : Act unit :=
  _ ← emit (CreateFileSystemWatcher glob);
  if Extension.watcher_throws (settings h) then throw (watcher_error h)
  else mret tt.

(** [await client.start()]. *)
Definition start (h : host) (c : Extension.LanguageClient) : Act unit :=
  _ ← emit (Client (Extension.CallStart c));
  if Extension.start_rejects (settings h) then throw (start_error h)
  else mret tt.

(** [commands.registerCommand(id, handler)]. *)
Definition register (h : host) (id : string) : Act disposable :=
  _ ← emit (RegisterCommand id);
  match register_refused h id with
  | Some e => throw e
  | None =>
      λ st, ({| binding := binding st;
                subscriptions := subscriptions st;
                registered := registered st ++ [id] |}, [], inr (Command id))
  end.

Definition activate (h : host) : Act unit :=
  _ ← emit (ConsoleLog "RooCode extension is now active");
  try_catch
    (let command := Extension.python_command (settings h) in
     _ ← create_watcher h "**/*.{py,ts,js}";
     let c := {| Extension.lc_id := "roocode";
                 Extension.lc_name := "RooCode Language Server";
                 Extension.lc_command := command |} in
     _ ← assign c;
     _ ← start h c;
     _ ← emit (ShowStatusBarItem "$(search) RooCode"
                 "Click to search documentation" "roocode.searchDocs");
     _ ← push [StatusBarItem];
     search ← register h "roocode.searchDocs";
     generate ← register h "roocode.generateDocs";
     push [search; generate])
    (λ error,
       _ ← emit (ShowErrorMessage
                   ("Failed to activate RooCode: " +:+ describe error));
       throw error).

(** [deactivate] on the state [activate] left. *)
Definition deactivate (st : state)
  : option Extension.thenable * list Extension.client_call :=
  let '(p, _, calls) := Extension.deactivate (binding st) in (p, calls).

(** *** Reading a run *)

Definition is_error_message (e : effect) : bool :=
  match e with
  | ShowErrorMessage _ => true
  | _ => false
  end.

Definition error_messages (t : list effect) : list effect :=
  filter (λ e, is_error_message e = true) t.

Definition client_calls (t : list effect) : list Extension.client_call :=
  omap (λ e, match e with Client call => Some call | _ => None end) t.

(** The client [activate] constructs. *)
Definition language_client (h : host) : Extension.LanguageClient :=
  {| Extension.lc_id := "roocode";
     Extension.lc_name := "RooCode Language Server";
     Extension.lc_command := Extension.python_command (settings h) |}.

(** The error of the first step that fails, if one does. *)
Definition first_failure (h : host) : option Script.js_error :=
  if Extension.watcher_throws (settings h) then Some (watcher_error h)
  else if Extension.start_rejects (settings h) then Some (start_error h)
  else match register_refused h "roocode.searchDocs" with
       | Some e => Some e
       | None => register_refused h "roocode.generateDocs"
       end.

(** The state of a freshly loaded extension. *)
Definition fresh : state :=
  {| binding := Extension.initial_state; subscriptions := []; registered := [] |}.

End Activate.

End Activation.

(** Sample hosts of [activate]: nothing fails, or the host refuses the
    second command because another extension holds its id. *)
Module ActivationSamples.

Definition quiet_settings : Extension.host :=
  {| Extension.pythonPath := Some "python3";
     Extension.watcher_throws := false;
     Extension.start_rejects := false |}.

Definition taken (id : string) : Script.js_error :=
  Script.HostError "Error" ("command '" +:+ id +:+ "' already exists").

Definition generate_taken : Activation.host :=
  {| Activation.settings := quiet_settings;
     Activation.watcher_error := Script.HostError "Error" "watcher";
     Activation.start_error := Script.HostError "Error" "start";
     Activation.register_refused := λ id,
       if String.eqb id "roocode.generateDocs" then Some (taken id) else None |}.

End ActivationSamples.

(** ** [RooCodeLanguageClient]: the class around the language client *)

Module ClientWrapper.

Section Wrapper.

Variable number : Type.

Local Abbreviation value := (Script.value number).

(** What a method does to the client and the console, in order. *)
Inductive effect :=
  | ClientStart
  | ClientStop
  | SendRequest (method : string) (params : value)
  | ConsoleLog (message : string)
  | ConsoleError (label : string) (error : Script.js_error).

(** How the operations of the wrapped [LanguageClient] settle. *)
Record language_client := {
  start_outcome : Script.js_error + unit;
  stop_outcome : Script.js_error + unit;
  reply : string → value → Script.js_error + value;
  running : bool;
}.

(** The fields of a [vscode.TextDocument] that [getSymbolInfo] reads. *)
Record text_document := {
  fs_path : string;
  language_id : string;
}.

Definition Run (A : Type) : Type := list effect * (Script.js_error + A).

Definition run_ret {A} (a : A) : Run A := ([], inr a).

Definition run_bind {A B} (m : Run A) (k : A → Run B) : Run B :=
  match m with
  | (t, inl e) => (t, inl e)
  | (t, inr a) => let '(t', r) := k a in (t ++ t', r)
  end.

#[export] Instance run_mret : MRet Run := @run_ret.
#[export] Instance run_mbind : MBind Run := λ A B k m, run_bind m k.

Definition emit (e : effect) : Run unit := ([e], inr tt).

Definition throw {A} (e : Script.js_error) : Run A := ([], inl e).

Definition settle {A} (outcome : Script.js_error + A) : Run A := ([], outcome).

Definition try_catch {A} (body : Run A) (handler : Script.js_error → Run A) : Run A :=
  match body with
  | (t, inl e) => let '(t', r) := handler e in (t ++ t', r)
  | (t, inr a) => (t, inr a)
  end.

(** [await this.client.sendRequest(method, params)]. *)
Definition send_request (c : language_client) (method : string) (params : value)
  : Run value :=
  _ ← emit (SendRequest method params); settle (reply c method params).

(** [catch (error) { console.error(label, error); throw error; }]. *)
Definition log_and_rethrow {A} (label : string) (error : Script.js_error) : Run A :=
  _ ← emit (ConsoleError label error); throw error.

Definition start (c : language_client) : Run unit :=
  try_catch
    (_ ← emit ClientStart;
     _ ← settle (start_outcome c);
     emit (ConsoleLog "RooCode Language Client started"))
    (log_and_rethrow "Failed to start RooCode Language Client:").

(** [if (this.client) { await this.client.stop(); }]: the constructor has
    assigned the field, so the test passes. *)
Definition stop (c : language_client) : Run unit :=
  _ ← emit ClientStop; settle (stop_outcome c).

Definition searchDocumentation (c : language_client) (params : value) : Run value :=
  try_catch (send_request c "roocode/search" params)
    (log_and_rethrow "Search request failed:").

Definition generateDocumentation (c : language_client) (params : value) : Run value :=
  try_catch (send_request c "roocode/generate" params)
    (log_and_rethrow "Generate request failed:").

Definition getSymbolInfo (c : language_client) (symbol : string)
    (context : text_document) : Run value :=
  try_catch
    (send_request c "roocode/symbolInfo"
       (Script.VObj {[ "symbol" := Script.VStr symbol;
                       "filePath" := Script.VStr (fs_path context);
                       "language" := Script.VStr (language_id context) ]}))
    (log_and_rethrow "Symbol info request failed:").

Definition sendCustomRequest (c : language_client) (method : string)
    (params : value) : Run value :=
  try_catch (send_request c method params)
    (log_and_rethrow ("Custom request '" +:+ method +:+ "' failed:")).

(** [this.client !== undefined && this.client.isRunning()]. *)
Definition isRunning (c : language_client) : bool := running c.

(** The four methods that send a request, as one family. *)
Inductive request :=
  | SearchDocumentation (params : value)
  | GenerateDocumentation (params : value)
  | GetSymbolInfo (symbol : string) (context : text_document)
  | SendCustomRequest (method : string) (params : value).

Definition perform (c : language_client) (q : request) : Run value :=
  match q with
  | SearchDocumentation params => searchDocumentation c params
  | GenerateDocumentation params => generateDocumentation c params
  | GetSymbolInfo symbol context => getSymbolInfo c symbol context
  | SendCustomRequest method params => sendCustomRequest c method params
  end.

Definition is_request (e : effect) : bool :=
  match e with
  | SendRequest _ _ => true
  | _ => false
  end.

Definition is_console_error (e : effect) : bool :=
  match e with
  | ConsoleError _ _ => true
  | _ => false
  end.

End Wrapper.

End ClientWrapper.

(** ** [debounce]

    The returned function makes a promise per call, clears the pending
    timer and sets a new one; when a timer fires, [func] runs on the
    arguments of the call that set it, and the promise of that call settles
    as the promise of [func] does.  Time is in milliseconds; events are the
    calls of the debounced function and the turns of the event loop, each
    some time after the event before it, at which a due timer runs. *)

Module Debounce.

(** A number of the platform: a double, which is a rational number, an
    infinity or NaN. *)
Inductive js_number :=
  | Finite (q : Q)
  | PlusInfinity
  | MinusInfinity
  | NaN.

(** The longest delay a timer of the extension host takes, [2^31 - 1]. *)
Definition TIMEOUT_MAX : Z := 2147483647.

(** [setTimeout(callback, wait)] in the extension host ([timeout] is a
    [NodeJS.Timeout]): a delay that is not within 1 and [TIMEOUT_MAX], NaN
    included, is set to 1; the timer is then due after the whole
    milliseconds of the delay. *)
Definition delay (wait : js_number) : nat :=
  match wait with
  | Finite q =>
      if Qle_bool 1%Q q && Qle_bool q (inject_Z TIMEOUT_MAX)
      then Z.to_nat (Qfloor q)
      else 1
  | PlusInfinity | MinusInfinity | NaN => 1
  end.

Section Debounced.

Variables A T : Type.

(** How the promise of [func(...args)] settles when [func] is called at a
    time with some arguments: resolved, rejected, or never. *)
Variable func : nat → A → option (Script.js_error + T).

Variable wait : js_number.

(** A pending timer: when it is due, the arguments its callback closes
    over, and the promise, by the index of its call, it will settle. *)
Record timer := {
  due : nat;
  args : A;
  promise : nat;
}.

Record state := {
  now : nat;
  timeout : option timer;
  promises : nat;
  invoked : list (nat * A);
  settled : list (nat * (Script.js_error + T));
}.

Inductive event :=
  | Call (a : A)
  | Elapse (dt : nat).

Definition initial : state :=
  {| now := 0; timeout := None; promises := 0; invoked := []; settled := [] |}.

(** [clearTimeout(timeout); timeout = setTimeout(..., wait)] in a new
    promise. *)
Definition call (a : A) (st : state) : state :=
  {| now := now st;
     timeout := Some {| due := now st + delay wait; args := a;
                        promise := promises st |};
     promises := S (promises st);
     invoked := invoked st;
     settled := settled st |}.

(** The event loop comes round [dt] milliseconds later; a timer that has
    become due by then runs [func(...args).then(resolve).catch(reject)],
    at that time.  A timer that has fired is no longer pending, and
    clearing it later does nothing. *)
Definition elapse (dt : nat) (st : state) : state :=
  let t := now st + dt in
  match timeout st with
  | Some tm =>
      if due tm <=? t
      then {| now := t;
              timeout := None;
              promises := promises st;
              invoked := invoked st ++ [(t, args tm)];
              settled := settled st
                         ++ match func t (args tm) with
                            | Some outcome => [(promise tm, outcome)]
                            | None => []
                            end |}
      else {| now := t; timeout := Some tm; promises := promises st;
              invoked := invoked st; settled := settled st |}
  | None =>
      {| now := t; timeout := None; promises := promises st;
         invoked := invoked st; settled := settled st |}
  end.

Definition step (st : state) (ev : event) : state :=
  match ev with
  | Call a => call a st
  | Elapse dt => elapse dt st
  end.

Definition run_from (st : state) (events : list event) : state :=
  foldl step st events.

Definition run (events : list event) : state := run_from initial events.

(** The arguments of the calls, in order: the promise of call [i] has
    index [i]. *)
Definition calls (events : list event) : list A :=
  omap (λ ev, match ev with Call a => Some a | Elapse _ => None end) events.

(** *** Invariants of a run

    [consistent cs st]: after calls with arguments [cs], promises are
    numbered by their calls, the pending timer belongs to an unsettled
    promise, no promise has settled twice, [func] has run at most once per
    call whose timer is gone, and every settled promise got the outcome of
    one run of [func] on the arguments of its own call. *)
Definition consistent (cs : list A) (st : state) : Prop :=
  promises st = length cs
  ∧ (∀ tm, timeout st = Some tm →
       cs !! promise tm = Some (args tm) ∧ (promise tm ∉ (settled st).*1))
  ∧ NoDup (settled st).*1
  ∧ length (settled st) ≤ length (invoked st)
  ∧ length (invoked st) + length (option_list (timeout st)) ≤ length cs
  ∧ (∀ p r, (p, r) ∈ settled st →
       ∃ t a, cs !! p = Some a ∧ (t, a) ∈ invoked st ∧ func t a = Some r).

(** [dropped id st]: the promise [id] exists, has not settled, and no
    timer is left that would settle it. *)
Definition dropped (id : nat) (st : state) : Prop :=
  (id ∉ (settled st).*1)
  ∧ (∀ tm, timeout st = Some tm → promise tm ≠ id)
  ∧ id < promises st.

End Debounced.

Arguments Call {A} a.
Arguments Elapse {A} dt.
Arguments due {A} _.
Arguments args {A} _.
Arguments promise {A} _.
Arguments now {A T} _.
Arguments timeout {A T} _.
Arguments promises {A T} _.
Arguments invoked {A T} _.
Arguments settled {A T} _.

End Debounce.

(** Sample use of [debounce]: a lookup that answers with the length of the
    symbol typed so far, debounced by half a second. *)
Module DebounceSamples.

Definition lookup (time : nat) (symbol : string)
  : option (Script.js_error + nat) :=
  Some (inr (String.length symbol)).

Definition half_second : Debounce.js_number := Debounce.Finite 500%Q.

(** Delays the platform does not take as they are. *)
Definition none : Debounce.js_number := Debounce.Finite 0%Q.

Definition too_long : Debounce.js_number :=
  Debounce.Finite (inject_Z 2147483648).

End DebounceSamples.
(** * Properties of the editor extension *)

Module ExtensionFacts.
Import Extension.

Lemma cat_cons (p : string) (ps : list string) : cat (p :: ps) = p +:+ cat ps.
Proof. reflexivity. Qed.

Lemma app_empty_r (s : string) : s +:+ EmptyString = s.
Proof.
  induction s as [|a s IH]; [reflexivity|].
  change (String a s +:+ EmptyString) with (String a (s +:+ EmptyString)).
  by rewrite IH.
Qed.

(** Joining with the empty separator is plain concatenation. *)
Lemma join_empty_sep (parts : list string) : join EmptyString parts = cat parts.
Proof.
  induction parts as [|p [|q rest] IH].
  - reflexivity.
  - change (join EmptyString [p]) with p.
    rewrite cat_cons. change (cat []) with EmptyString.
    by rewrite app_empty_r.
  - change (join EmptyString (p :: q :: rest))
      with (p +:+ EmptyString +:+ join EmptyString (q :: rest)).
    rewrite IH. reflexivity.
Qed.

Lemma render_block_of {number} (toFixed : number → nat → string)
    (results : list (SearchResult number)) :
  Forall2 (block_of number toFixed) results (render number toFixed <$> results).
Proof. induction results; constructor; done. Qed.

(** C9.  [deactivate] returns [undefined] and invokes no client operation
    when the module-level client is unset; otherwise it invokes exactly
    [client.stop()] and returns the promise that call produced.  The module
    state is left as it was in both cases. *)
Theorem deactivate_unset_or_stop (st : module_state) :
  match client st with
  | None => deactivate st = (None, st, [])
  | Some c =>
      deactivate st = (Some (PromiseOf (CallStop c)), st, [CallStop c])
  end.
Proof. destruct st as [[c|]]; reflexivity. Qed.

(** C10.  The page is the fixed head, then one result block per input
    element in input order, then the fixed foot; the block of an element
    embeds its text, its source and its relevance formatted by
    [toFixed(2)]. *)
Theorem formatSearchResults_one_block_each {number}
    (toFixed : number → nat → string) (results : list (SearchResult number)) :
  ∃ blocks : list string,
    formatSearchResults number toFixed results
      = page_head +:+ cat blocks +:+ page_foot
    ∧ length blocks = length results
    ∧ Forall2 (block_of number toFixed) results blocks.
Proof.
  exists (render number toFixed <$> results). split; [|split].
  - unfold formatSearchResults. by rewrite join_empty_sep.
  - apply length_fmap.
  - apply render_block_of.
Qed.

End ExtensionFacts.

(** * Properties of the cache and of change detection *)

Module CacheStoreFacts.
Import Data CacheStore.

(** The flowchart uses the cached copy exactly for fresh files. *)
Lemma on_file_request_cache now (manifest : Manifest) id :
  on_file_request now manifest id = UseCache ↔ is_fresh now manifest id = true.
Proof.
  unfold on_file_request, is_fresh. destruct (manifest !! id) as [entry|].
  - destruct (now <? ttl_expires_at entry)%Z; split; congruence.
  - split; congruence.
Qed.

(** C7.  [is-fresh(file-id)] is true if and only if the manifest has an
    entry for the file id and the current time is strictly before the
    entry's [ttl-expires-at]. *)
Theorem is_fresh_iff (now : timestamp) (manifest : Manifest) (id : file_id) :
  is_fresh now manifest id = true
  ↔ ∃ entry, manifest !! id = Some entry ∧ (now < ttl_expires_at entry)%Z.
Proof.
  unfold is_fresh. destruct (manifest !! id) as [entry|] eqn:Hid.
  - rewrite Z.ltb_lt. split.
    + intros Hlt. by exists entry.
    + intros (entry' & Heq & Hlt). by simplify_eq.
  - split; [done|]. by intros (entry & ? & _).
Qed.

End CacheStoreFacts.

Module ChangeWatcherFacts.
Import Data ChangeWatcher.

Lemma is_class_classify (manifest : Manifest) c f :
  is_class manifest c f = true ↔ classify manifest f = c.
Proof. unfold is_class. destruct (classify manifest f), c; split; congruence. Qed.

(** The ids of one class are the ids of the listed files so classified. *)
Lemma elem_of_class_ids (manifest : Manifest) c (listing : list RemoteFile) id :
  id ∈ rf_id <$> filter (λ f, is_class manifest c f = true) listing
  ↔ ∃ f, f ∈ listing ∧ rf_id f = id ∧ classify manifest f = c.
Proof.
  rewrite list_elem_of_fmap. split.
  - intros (f & -> & Hf). apply list_elem_of_filter in Hf as [Hc Hf].
    exists f. by rewrite <- is_class_classify.
  - intros (f & Hf & <- & Hc). exists f. split; [done|].
    apply list_elem_of_filter. by rewrite is_class_classify.
Qed.

Lemma classify_new (manifest : Manifest) f :
  classify manifest f = New ↔ manifest !! rf_id f = None.
Proof.
  unfold classify. destruct (manifest !! rf_id f); [|done].
  case_bool_decide; split; congruence.
Qed.

Lemma classify_unchanged (manifest : Manifest) f :
  classify manifest f = Unchanged
  ↔ ∃ e, manifest !! rf_id f = Some e ∧ remote_checksum f = checksum e.
Proof.
  unfold classify. destruct (manifest !! rf_id f) as [e|].
  - case_bool_decide; split; try congruence.
    + intros _. by exists e.
    + intros (e' & ? & ?). by simplify_eq.
  - split; [done|]. by intros (e & ? & _).
Qed.

Lemma classify_updated (manifest : Manifest) f :
  classify manifest f = Updated
  ↔ ∃ e, manifest !! rf_id f = Some e ∧ remote_checksum f ≠ checksum e.
Proof.
  unfold classify. destruct (manifest !! rf_id f) as [e|].
  - case_bool_decide; split; try congruence.
    + intros (e' & ? & ?). by simplify_eq.
    + intros _. by exists e.
  - split; [done|]. by intros (e & ? & _).
Qed.







Import WatcherSamples.

Example diff_sample :
  classified_ids (diff listing manifest) = ["C"; "B"; "D"; "A"].
Proof. vm_compute. reflexivity. Qed.

(** The scenario of the specification: with an empty manifest both listed
    files are new. *)
Example diff_empty_manifest :
  new_ids (diff [remote "A" "c1"; remote "B" "c2"] ∅) = ["A"; "B"].
Proof. vm_compute. reflexivity. Qed.


(** The rule alone, without looking at how [diff] is computed, puts an id
    that is listed with the cached checksum and with another one in two
    classes: a result that follows the rule cannot also be a partition. *)
Lemma rule_splits_repeated_id (d : Diff) :
  follows_rule d twice_listed one_cached →
  "A" ∈ unchanged_ids d ∧ "A" ∈ updated_ids d.
Proof.
  intros (Hunchanged & Hupdated & _). split.
  - apply Hunchanged. exists (remote "A" "c1"), (cached "A" "c1").
    split; [apply list_elem_of_here|]. split; [reflexivity|].
    split; [apply lookup_singleton_eq|reflexivity].
  - apply Hupdated. exists (remote "A" "c2"), (cached "A" "c1").
    split; [apply list_elem_of_further, list_elem_of_here|].
    split; [reflexivity|]. split; [apply lookup_singleton_eq|].
    cbn. discriminate.
Qed.

(** [diff] follows the rule on every listing. *)
Lemma diff_follows_rule (listing : list RemoteFile) (manifest : Manifest) :
  follows_rule (diff listing manifest) listing manifest.
Proof.
  split; [|split].
  - intros id. unfold unchanged_ids, diff; cbn [unchanged].
    rewrite elem_of_class_ids. split.
    + intros (f & Hf & <- & (e & He & Hc)%classify_unchanged). eauto 10.
    + intros (f & e & Hf & <- & He & Hc). exists f.
      repeat split; [done|]. apply classify_unchanged. eauto.
  - intros id. unfold updated_ids, diff; cbn [updated].
    rewrite elem_of_class_ids. split.
    + intros (f & Hf & <- & (e & He & Hc)%classify_updated). eauto 10.
    + intros (f & e & Hf & <- & He & Hc). exists f.
      repeat split; [done|]. apply classify_updated. eauto.
  - intros id. unfold new_ids, diff; cbn [new].
    rewrite elem_of_class_ids. split.
    + intros (f & Hf & <- & Hc%classify_new). eauto.
    + intros (f & Hf & <- & Hc). exists f.
      repeat split; [done|]. by apply classify_new.
Qed.


End ChangeWatcherFacts.

(** * Properties of context assembly *)

Module ContextBuilderFacts.
Import Data ContextBuilder.

Section BuilderFacts.

Variable token : Type.
Variable score : Type.
Variable near_duplicate : list token → list token → bool.

Local Abbreviation SearchResult := (ContextBuilder.SearchResult token score).
Local Abbreviation Context := (ContextBuilder.Context token).
Local Abbreviation empty := (ContextBuilder.empty token).
Local Abbreviation include := (ContextBuilder.include token).
Local Abbreviation cite := (ContextBuilder.cite token score).
Local Abbreviation offer := (ContextBuilder.offer token score near_duplicate).
Local Abbreviation offer_first :=
  (ContextBuilder.offer_first token score near_duplicate).
Local Abbreviation in_rank_order := (ContextBuilder.in_rank_order token score).
Local Abbreviation assemble := (ContextBuilder.assemble token score near_duplicate).
Local Abbreviation build := (ContextBuilder.build token score near_duplicate).
Local Abbreviation highest_ranked := (ContextBuilder.highest_ranked token score).
Local Abbreviation sole_highest_ranked :=
  (ContextBuilder.sole_highest_ranked token score).
Local Abbreviation justified := (ContextBuilder.justified token score).
Local Abbreviation sound := (ContextBuilder.sound token score).

Lemma sound_empty (results : list SearchResult) max_tokens :
  sound results max_tokens empty.
Proof. repeat split; cbn; [lia|constructor]. Qed.

Lemma sound_include (results : list SearchResult) max_tokens ctx t c :
  sound results max_tokens ctx →
  total_token_count ctx + length t ≤ max_tokens →
  justified results max_tokens t c →
  sound results max_tokens (include ctx t c).
Proof.
  intros (Hle & Hsum & Hj) Hfit Hjc. repeat split; cbn.
  - done.
  - rewrite fmap_app, sum_list_with_app. cbn. lia.
  - apply Forall2_app; [done|]. by repeat constructor.
Qed.

Lemma sound_offer (results : list SearchResult) max_tokens ctx r :
  r ∈ results →
  sound results max_tokens ctx →
  sound results max_tokens (offer max_tokens ctx r).
Proof.
  intros Hr Hs. unfold ContextBuilder.offer.
  destruct (existsb _ _); [done|].
  destruct (Nat.leb_spec (total_token_count ctx + length (sr_text r))
              max_tokens) as [Hfit|_]; [|done].
  apply sound_include; [done..|]. exists r. by repeat split.
Qed.

Lemma sound_offer_first (results : list SearchResult) max_tokens r :
  highest_ranked results r →
  sound results max_tokens (offer_first max_tokens r).
Proof.
  intros Htop. pose proof Htop as [Hr _]. unfold ContextBuilder.offer_first.
  destruct (Nat.ltb_spec max_tokens (length (sr_text r))) as [Hover|_].
  - apply sound_include; [apply sound_empty| |].
    + cbn. rewrite length_take. lia.
    + exists r. cbn. auto.
  - by apply sound_offer, sound_empty.
Qed.

Lemma sound_walk (results : list SearchResult) max_tokens rest ctx :
  (∀ r, r ∈ rest → r ∈ results) →
  sound results max_tokens ctx →
  sound results max_tokens (foldl (offer max_tokens) ctx rest).
Proof.
  revert ctx. induction rest as [|r rest IH]; intros ctx Hin Hs; [done|].
  cbn. apply IH.
  - intros r' Hr'. apply Hin. by right.
  - apply sound_offer; [|done]. apply Hin. by left.
Qed.

(** The walk only ever appends. *)
Lemma offer_extends max_tokens (ctx : Context) r :
  ∃ ts cs, texts (offer max_tokens ctx r) = texts ctx ++ ts
           ∧ source_citations (offer max_tokens ctx r) = source_citations ctx ++ cs.
Proof.
  unfold ContextBuilder.offer. destruct (existsb _ _).
  { exists [], []. by rewrite !app_nil_r. }
  destruct (_ <=? _).
  - eexists _, _. split; reflexivity.
  - exists [], []. by rewrite !app_nil_r.
Qed.

Lemma walk_extends max_tokens rest (ctx : Context) :
  ∃ ts cs, texts (foldl (offer max_tokens) ctx rest) = texts ctx ++ ts
           ∧ source_citations (foldl (offer max_tokens) ctx rest)
             = source_citations ctx ++ cs.
Proof.
  revert ctx. induction rest as [|r rest IH]; intros ctx.
  { exists [], []. by rewrite !app_nil_r. }
  cbn. destruct (IH (offer max_tokens ctx r)) as (ts & cs & -> & ->).
  destruct (offer_extends max_tokens ctx r) as (ts' & cs' & -> & ->).
  exists (ts' ++ ts), (cs' ++ cs). by rewrite !app_assoc.
Qed.

#[local] Instance by_rank_trans : Transitive (by_rank token score).
Proof. intros a b c. unfold by_rank. lia. Qed.

#[local] Instance by_rank_total : Total (by_rank token score).
Proof. intros a b. unfold by_rank. lia. Qed.

Lemma in_rank_order_elem (results : list SearchResult) r :
  r ∈ in_rank_order results ↔ r ∈ results.
Proof. unfold ContextBuilder.in_rank_order. by rewrite merge_sort_Permutation. Qed.

(** The walk starts at a highest-ranked result. *)
Lemma in_rank_order_head (results : list SearchResult) r rest :
  in_rank_order results = r :: rest → highest_ranked results r.
Proof.
  intros Heq.
  pose proof (StronglySorted_merge_sort (by_rank token score) results) as Hs.
  pose proof (in_rank_order_elem results) as Hin.
  unfold ContextBuilder.in_rank_order in *. rewrite Heq in Hs, Hin.
  apply StronglySorted_inv in Hs as [_ Hall]. split.
  - apply Hin. apply list_elem_of_here.
  - intros r' [->|Hr']%Hin%elem_of_cons; [done|].
    rewrite Forall_forall in Hall. by apply Hall.
Qed.

(** And at the highest-ranked result, where there is just one. *)
Lemma in_rank_order_sole (results : list SearchResult) top :
  sole_highest_ranked results top →
  ∃ rest, in_rank_order results = top :: rest.
Proof.
  intros [Hin Hsole].
  destruct (in_rank_order results) as [|r rest] eqn:Heq.
  - apply in_rank_order_elem in Hin. rewrite Heq in Hin.
    by apply elem_of_nil in Hin.
  - destruct (in_rank_order_head results r rest Heq) as [Hr Hmin].
    exists rest. f_equal.
    destruct (Hsole r Hr) as [->|Hlt]; [done|].
    specialize (Hmin top Hin). lia.
Qed.

Lemma sound_assemble (results : list SearchResult) max_tokens :
  sound results max_tokens (assemble results max_tokens).
Proof.
  unfold ContextBuilder.assemble.
  pose proof (in_rank_order_elem results) as Hin.
  destruct (in_rank_order results) as [|r rest] eqn:Heq; [apply sound_empty|].
  cbn. apply sound_walk.
  - intros r' Hr'. apply Hin. by right.
  - apply sound_offer_first. by eapply in_rank_order_head.
Qed.

(** What the walk does with the result it starts from. *)
Lemma offer_first_opens max_tokens (r : SearchResult) :
  let over := max_tokens <? length (sr_text r) in
  texts (offer_first max_tokens r)
  = [if over then take max_tokens (sr_text r) else sr_text r]
  ∧ source_citations (offer_first max_tokens r) = [cite r over].
Proof.
  cbn zeta. unfold ContextBuilder.offer_first, ContextBuilder.offer.
  destruct (Nat.ltb_spec max_tokens (length (sr_text r))) as [Hover|Hfits].
  - done.
  - cbn. destruct (Nat.leb_spec (length (sr_text r)) max_tokens); [done|lia].
Qed.

(** C2.  [build] always returns a Context, never a BudgetExceededError; its
    total-token-count is the sum over the included texts and is at most
    max-tokens.  Every included text is the unmodified text of a search
    result, except that a highest-ranked result which alone exceeds
    max-tokens is included truncated to the budget with its citation
    flagged.  The context opens with a highest-ranked result, truncated
    and flagged exactly when it alone exceeds max-tokens; where one result
    ranks before all others and alone exceeds max-tokens, it is that
    result whose truncation opens the context. *)
Theorem build_within_budget (query : string) (results : list SearchResult)
    (max_tokens : nat) :
  ∃ ctx,
    build query results max_tokens = inr ctx
    ∧ total_token_count ctx ≤ max_tokens
    ∧ total_token_count ctx = sum_list (length <$> texts ctx)
    ∧ Forall2 (justified results max_tokens) (texts ctx) (source_citations ctx)
    ∧ (results ≠ [] →
       ∃ top ts cs,
         highest_ranked results top
         ∧ texts ctx
           = (if max_tokens <? length (sr_text top)
              then take max_tokens (sr_text top) else sr_text top) :: ts
         ∧ source_citations ctx
           = cite top (max_tokens <? length (sr_text top)) :: cs)
    ∧ (∀ top, sole_highest_ranked results top →
              max_tokens < length (sr_text top) →
              ∃ ts cs, texts ctx = take max_tokens (sr_text top) :: ts
                       ∧ source_citations ctx = cite top true :: cs).
Proof.
  exists (assemble results max_tokens).
  destruct (sound_assemble results max_tokens) as (Hle & Hsum & Hj).
  split; [|split; [done|split; [done|split; [done|split]]]].
  - unfold ContextBuilder.build. cbn zeta.
    by destruct (Nat.leb_spec (total_token_count (assemble results max_tokens))
                   max_tokens); [|lia].
  - intros Hne. unfold ContextBuilder.assemble.
    destruct (in_rank_order results) as [|top rest] eqn:Heq.
    { destruct results as [|r results]; [done|].
      assert (Hin : r ∈ in_rank_order (r :: results))
        by (apply in_rank_order_elem, list_elem_of_here).
      rewrite Heq in Hin. by apply elem_of_nil in Hin. }
    destruct (walk_extends max_tokens rest (offer_first max_tokens top))
      as (ts & cs & -> & ->).
    destruct (offer_first_opens max_tokens top) as [-> ->].
    exists top, ts, cs. split; [by eapply in_rank_order_head|done].
  - intros top Htop Hover. unfold ContextBuilder.assemble.
    destruct (in_rank_order_sole results top Htop) as [rest ->].
    destruct (walk_extends max_tokens rest (offer_first max_tokens top))
      as (ts & cs & -> & ->).
    destruct (offer_first_opens max_tokens top) as [-> ->].
    destruct (Nat.ltb_spec max_tokens (length (sr_text top))); [|lia].
    cbn. eauto.
Qed.

End BuilderFacts.

Import BuilderSamples.

(** The result of rank 0, handed over last, is the one highest-ranked
    result and has six tokens: under a budget of four the context opens
    with its first four tokens, flagged, and stays within the budget. *)
Lemma build_within_budget_witness :
  ∃ ctx ts cs,
    build string unit same_text "refunds" results 4 = inr ctx
    ∧ total_token_count ctx ≤ 4
    ∧ texts ctx = ["refunds"; "are"; "issued"; "within"] :: ts
    ∧ source_citations ctx
      = cite string unit
          (result "k1" ["refunds"; "are"; "issued"; "within"; "thirty"; "days"] 0)
          true :: cs.
Proof.
  destruct (build_within_budget string unit same_text "refunds" results 4)
    as (ctx & Hbuild & Hle & _ & _ & _ & Hover).
  destruct (Hover (result "k1"
                     ["refunds"; "are"; "issued"; "within"; "thirty"; "days"] 0))
    as (ts & cs & Hts & Hcs).
  - split; [apply list_elem_of_further, list_elem_of_here|].
    intros r' [->|[->|[]%elem_of_nil]%elem_of_cons]%elem_of_cons;
      [right; cbn; lia|by left].
  - cbn. lia.
  - exists ctx, ts, cs. auto.
Defined.

(** The result of rank 0 is handed over last and does not fit four tokens:
    it opens the context all the same, truncated and flagged, and the
    budget it has used up leaves no room for the other. *)
Example build_sample :
  build string unit same_text "refunds" results 4
  = inr {| texts := [["refunds"; "are"; "issued"; "within"]];
           total_token_count := 4;
           source_citations :=
             [cite string unit
                (result "k1" ["refunds"; "are"; "issued"; "within"; "thirty"; "days"] 0)
                true] |}.
Proof. vm_compute. reflexivity. Qed.

End ContextBuilderFacts.

(** * Properties of the formatter on values of type [any] *)

Module ScriptFacts.
Import Script.

Lemma str_app_cons a (s t : string) : String a s +:+ t = String a (s +:+ t).
Proof. reflexivity. Qed.

Lemma str_app_assoc (s t u : string) : (s +:+ t) +:+ u = s +:+ (t +:+ u).
Proof.
  induction s as [|a s IH]; [reflexivity|].
  rewrite !str_app_cons. by rewrite IH.
Qed.

Section ValuesFacts.

Variable number : Type.
Variable toFixed : number → nat → string.
Variable number_to_string : number → string.

Local Abbreviation value := (Script.value number).
Local Abbreviation render_any := (render_any number toFixed number_to_string).
Local Abbreviation formatSearchResults_any :=
  (formatSearchResults_any number toFixed number_to_string).
Local Abbreviation renderable := (renderable number).
Local Abbreviation encode := (encode number).

Local Abbreviation to_string := (to_string number number_to_string).
Local Abbreviation printable := (printable number).

Local Abbreviation to_strings := (to_strings number number_to_string).
Local Abbreviation element_to_string :=
  (element_to_string number number_to_string).

Lemma to_string_array (elems : list value) :
  to_string (VArr elems)
  = match to_strings elems with
    | inl err => inl err
    | inr parts => inr (Extension.join "," parts)
    end.
Proof. reflexivity. Qed.

(** The conversion to a string succeeds exactly on the printable values. *)
Lemma to_string_printable (v : value) :
  (∃ s, to_string v = inr s) ↔ printable v = true.
Proof.
  revert v. fix IH 1. intros [| |[]|n|s|elems|fields];
    try (cbn; split; [done|eauto]).
  - rewrite to_string_array. cbn [Script.printable].
    assert (Hparts : (∃ parts, to_strings elems = inr parts)
                     ↔ forallb printable elems = true).
    { induction elems as [|e elems IHl]; cbn; [split; [done|eauto]|].
      rewrite andb_true_iff, <- IHl, <- (IH e). clear IHl.
      assert (Helem : (∃ s, element_to_string e = inr s)
                      ↔ ∃ s, to_string e = inr s)
        by (destruct e; cbn; split; eauto).
      rewrite <- Helem.
      destruct (element_to_string e) as [err|s].
      - split; [by intros [parts ?]|]. by intros [[s ?] _].
      - destruct (to_strings elems) as [err|parts].
        + split; [by intros [parts ?]|]. by intros [_ [parts ?]].
        + split; eauto. }
    rewrite <- Hparts.
    destruct (to_strings elems) as [err|parts].
    + split; [by intros [s ?]|]. by intros [parts ?].
    + split; eauto.
  - cbn. destruct (fields !! "toString") as [own|].
    + split; [by intros [s ?]|]. by intros ?%bool_decide_eq_true.
    + split; [|eauto]. intros _. by apply bool_decide_eq_true.
Qed.

Lemma render_any_renderable (v : value) :
  (∃ block, render_any v = inr block) ↔ renderable v.
Proof.
  split.
  - intros [block Hb]. unfold Script.render_any in Hb.
    destruct v as [| | | | |elems|fields]; cbn in Hb; try done.
    destruct (to_string (default VUndefined (fields !! "text")))
      as [|text_string] eqn:Htext; [done|].
    destruct (to_string (default VUndefined (fields !! "source")))
      as [|source_string] eqn:Hsource; [done|].
    destruct (fields !! "relevance") as [[| | |n| | |]|] eqn:Hrel;
      cbn in Hb; try done.
    exists fields, n. split; [done|].
    split; [apply to_string_printable; eauto|].
    split; [apply to_string_printable; eauto|done].
  - intros (fields & n & -> & [text_string Htext]%to_string_printable
            & [source_string Hsource]%to_string_printable & Hrel).
    unfold Script.render_any. cbn.
    rewrite Htext, Hsource, Hrel. cbn. eauto.
Qed.

Lemma map_throwing_Forall {A B} (f : A → js_error + B) (l : list A) :
  (∃ ys, map_throwing f l = inr ys) ↔ Forall (λ x, ∃ y, f x = inr y) l.
Proof.
  induction l as [|x l IH]; cbn.
  - split; [constructor|eauto].
  - split.
    + intros [ys Hys]. destruct (f x) as [e|y] eqn:Hx; [done|].
      destruct (map_throwing f l) as [e|ys'] eqn:Hl; [done|].
      constructor; [eauto|]. apply IH. eauto.
    + intros [[y Hy] [ys Hys]%IH]%Forall_cons. rewrite Hy, Hys. eauto.
Qed.

(** X1.  [formatSearchResults] returns a page exactly for an array whose
    every element is an object with a numeric [relevance] and with a
    [text] and a [source] that convert to strings; on anything else
    ([undefined], [null], a scalar, an object, an array with one unfit
    element) it throws.  A missing [text] or [source] converts, to
    [undefined], and does not make it throw; an object with an own
    [toString] property does not convert. *)
Theorem formatSearchResults_any_returns (results : value) :
  (∃ html, formatSearchResults_any results = inr html)
  ↔ ∃ elems, results = VArr elems ∧ Forall renderable elems.
Proof.
  split.
  - intros [html Hhtml].
    destruct results as [| | | | |elems|fields]; cbn in Hhtml; try done.
    exists elems. split; [done|].
    destruct (map_throwing render_any elems) as [e|blocks] eqn:Hmap; [done|].
    assert (Hall : Forall (λ x, ∃ y, render_any x = inr y) elems)
      by (apply map_throwing_Forall; eauto).
    eapply Forall_impl; [exact Hall|]. intros v. apply render_any_renderable.
  - intros (elems & -> & Hall). cbn.
    assert (Hmap : ∃ blocks, map_throwing render_any elems = inr blocks).
    { apply map_throwing_Forall. eapply Forall_impl; [exact Hall|].
      intros v. apply render_any_renderable. }
    destruct Hmap as [blocks ->]. eauto.
Qed.

Lemma render_any_encode (r : Extension.SearchResult number) :
  render_any (encode r) = inr (Extension.render number toFixed r).
Proof. reflexivity. Qed.

Lemma map_throwing_encode (rs : list (Extension.SearchResult number)) :
  map_throwing render_any (encode <$> rs)
  = inr (Extension.render number toFixed <$> rs).
Proof.
  induction rs as [|r rs IH]; [done|].
  rewrite fmap_cons. cbn [map_throwing].
  by rewrite render_any_encode, IH.
Qed.

(** X2.  On an array of well-formed SearchResult objects the formatter on
    [any] never throws and returns exactly the page of the typed formatter:
    the head, one block per result in order, the foot. *)
Theorem formatSearchResults_any_typed (rs : list (Extension.SearchResult number)) :
  formatSearchResults_any (VArr (encode <$> rs))
  = inr (Extension.formatSearchResults number toFixed rs).
Proof.
  cbn [Script.formatSearchResults_any]. by rewrite map_throwing_encode.
Qed.

(** X3.  The formatter embeds its strings unescaped: the page of any two
    results is also the page of one forged result whose source carries the
    markup between them, so a page does not tell how many results it was
    made from. *)
Theorem formatSearchResults_forgeable
    (r1 r2 : Extension.SearchResult number)
    (rest : list (Extension.SearchResult number)) :
  ∃ forged,
    Extension.formatSearchResults number toFixed (forged :: rest)
    = Extension.formatSearchResults number toFixed (r1 :: r2 :: rest)
    ∧ Extension.text number forged = Extension.text number r1
    ∧ Extension.relevance number forged = Extension.relevance number r2.
Proof.
  exists {| Extension.text := Extension.text number r1;
            Extension.source :=
              Extension.source number r1 +:+ Extension.block_relevance
              +:+ toFixed (Extension.relevance number r1) 2
              +:+ Extension.block_close +:+ Extension.block_open
              +:+ Extension.text number r2 +:+ Extension.block_source
              +:+ Extension.source number r2;
            Extension.relevance := Extension.relevance number r2 |}.
  split; [|done].
  unfold Extension.formatSearchResults. rewrite !ExtensionFacts.join_empty_sep.
  rewrite !fmap_cons, !ExtensionFacts.cat_cons.
  unfold Extension.render. cbn [Extension.text Extension.source Extension.relevance].
  f_equal. by rewrite !str_app_assoc.
Qed.

End ValuesFacts.

End ScriptFacts.

(** * Properties of the command handlers *)

Module HandlersFacts.
Import Script Handlers.

Section CommandsFacts.

Variable number : Type.
Variable toFixed : number → nat → string.
Variable number_to_string : number → string.
Variable number_truthy : number → bool.
Variable describe : js_error → string.

Local Abbreviation value := (Script.value number).
Local Abbreviation truthy := (Script.truthy number number_truthy).
Local Abbreviation formatSearchResults_any :=
  (Script.formatSearchResults_any number toFixed number_to_string).
Local Abbreviation window_host := (window_host number).
Local Abbreviation effect := (effect number).
Local Abbreviation searchDocs :=
  (searchDocs number toFixed number_to_string number_truthy describe).
Local Abbreviation generateDocs := (generateDocs number number_truthy describe).
Local Abbreviation search_task :=
  (search_task number toFixed number_to_string number_truthy describe).

Ltac run_step :=
  cbn [searchDocs Handlers.searchDocs Handlers.generateDocs Handlers.search_task
       Handlers.search_query Handlers.with_progress Handlers.send_request
       Handlers.show_input_box Handlers.edit_insert Handlers.try_catch
       Handlers.emit Handlers.throw Handlers.settle Handlers.run_bind
       Handlers.run_ret mbind mret Handlers.run_mbind Handlers.run_mret
       fst snd app from_option].

Ltac run_done := split; [reflexivity|vm_compute; lia].

(** X4.  The search handler never fails: however [withProgress],
    [showInputBox] and the request settle and whatever the server answers,
    the run ends normally, with at most one message shown. *)
Theorem searchDocs_settles (h : window_host) :
  (searchDocs h).2 = inr tt ∧ length (messages number (searchDocs h).1) ≤ 1.
Proof.
  unfold Handlers.searchDocs.
  destruct (active_editor number h) as [ed|]; [|run_done].
  unfold Handlers.with_progress. run_step.
  destruct (progress_fails number h) as [pe|]; run_step; [run_done|].
  unfold Handlers.search_task, Handlers.search_query.
  destruct (selected_text ed) as [|a text]; run_step.
  - destruct (input_box number h) as [ie|answer]; run_step;
      [run_done|].
    destruct (reply number h _ _) as [re|response]; run_step;
      [run_done|].
    destruct (truthy response); run_step; [|run_done].
    destruct (formatSearchResults_any response); run_step; run_done.
  - destruct (reply number h _ _) as [re|response]; run_step;
      [run_done|].
    destruct (truthy response); run_step; [|run_done].
    destruct (formatSearchResults_any response); run_step; run_done.
Qed.

Ltac in_trace H :=
  repeat (apply elem_of_cons in H as [H|H]); try (by apply elem_of_nil in H);
  try discriminate H.

(** X5.  The search handler sends at most one request, always
    [roocode/search] from an active editor.  Its query is the selected text
    when there is one, and then no input box is shown; otherwise it is what
    the input box resolved to, [undefined] when it was dismissed. *)
Theorem searchDocs_requests (h : window_host) :
  length (requests number (searchDocs h).1) ≤ 1
  ∧ ∀ method params,
      SendRequest number method params ∈ (searchDocs h).1 →
      ∃ ed query,
        active_editor number h = Some ed
        ∧ method = "roocode/search"
        ∧ params = VObj {[ "query" := query ]}
        ∧ match selected_text ed with
          | EmptyString =>
              ShowInputBox number "Enter search query" ∈ (searchDocs h).1
              ∧ ∃ answer, input_box number h = inr answer
                          ∧ query = from_option VStr VUndefined answer
          | text =>
              query = VStr text
              ∧ ∀ prompt, ShowInputBox number prompt ∉ (searchDocs h).1
          end.
Proof.
  unfold Handlers.searchDocs.
  destruct (active_editor number h) as [ed|] eqn:Hed;
    [|split; [vm_compute; lia|intros m p Hin; run_step; cbn in Hin; in_trace Hin]].
  unfold Handlers.with_progress. run_step.
  destruct (progress_fails number h) as [pe|]; run_step;
    [split; [vm_compute; lia|intros m p Hin; cbn in Hin; in_trace Hin]|].
  unfold Handlers.search_task, Handlers.search_query.
  destruct (selected_text ed) as [|a text] eqn:Hsel; run_step.
  - destruct (input_box number h) as [ie|answer] eqn:Hbox; run_step;
      [split; [vm_compute; lia|intros m p Hin; cbn in Hin; in_trace Hin]|].
    destruct (reply number h _ _) as [re|response]; run_step.
    { split; [vm_compute; lia|]. intros m p Hin. cbn in Hin. in_trace Hin.
      simplify_eq. exists ed, (from_option VStr VUndefined answer).
      rewrite Hsel. repeat split; try done; [|eauto].
      right. by left. }
    destruct (truthy response); run_step.
    2:{ split; [vm_compute; lia|]. intros m p Hin. cbn in Hin. in_trace Hin.
        simplify_eq. exists ed, (from_option VStr VUndefined answer).
        rewrite Hsel. repeat split; try done; [|eauto].
        right. by left. }
    destruct (formatSearchResults_any response); run_step;
      (split; [vm_compute; lia|]; intros m p Hin; cbn in Hin; in_trace Hin;
       simplify_eq; exists ed, (from_option VStr VUndefined answer);
       rewrite Hsel; repeat split; try done; [|eauto]; right; by left).
  - assert (Hnone : ∀ (t : list effect) prompt,
              (∀ e, e ∈ t → ∀ q, e ≠ ShowInputBox number q) →
              ShowInputBox number prompt ∉ t).
    { intros t prompt Ht Hin. by apply (Ht _ Hin prompt). }
    destruct (reply number h _ _) as [re|response]; run_step.
    { split; [vm_compute; lia|]. intros m p Hin. cbn in Hin. in_trace Hin.
      simplify_eq. exists ed, (VStr (String a text)).
      rewrite Hsel. repeat split; try done.
      intros prompt. apply Hnone. intros e He q. cbn in He. in_trace He;
        by subst. }
    destruct (truthy response); run_step.
    2:{ split; [vm_compute; lia|]. intros m p Hin. cbn in Hin. in_trace Hin.
        simplify_eq. exists ed, (VStr (String a text)).
        rewrite Hsel. repeat split; try done.
        intros prompt. apply Hnone. intros e He q. cbn in He. in_trace He;
          by subst. }
    destruct (formatSearchResults_any response); run_step;
      (split; [vm_compute; lia|]; intros m p Hin; cbn in Hin; in_trace Hin;
       simplify_eq; exists ed, (VStr (String a text));
       rewrite Hsel; repeat split; try done;
       intros prompt; apply Hnone; intros e He q; cbn in He; in_trace He;
       by subst).
Qed.

Ltac search_cases h ed :=
  unfold Handlers.searchDocs, Handlers.with_progress, Handlers.search_task,
    Handlers.search_query;
  destruct (active_editor number h) as [ed|] eqn:Hed; run_step;
  [destruct (progress_fails number h) as [pe|] eqn:Hprog; run_step;
   [|destruct (selected_text ed) as [|a text] eqn:Hsel; run_step;
     [destruct (input_box number h) as [ie|answer] eqn:Hbox; run_step|];
     try (destruct (reply number h _ _) as [re|response] eqn:Hreply; run_step;
          [|destruct (truthy response) eqn:Htruthy; run_step;
            [destruct (formatSearchResults_any response) as [fe|page]
               eqn:Hfmt; run_step|]])]|].

(** X6.  Dismissing the input box does not call the search off: with
    nothing selected and the box dismissed, the request is still sent, with
    an [undefined] query. *)
Theorem searchDocs_dismissed_input (h : window_host) (ed : editor) :
  active_editor number h = Some ed →
  progress_fails number h = None →
  selected_text ed = EmptyString →
  input_box number h = inr None →
  SendRequest number "roocode/search" (VObj {[ "query" := VUndefined ]})
    ∈ (searchDocs h).1.
Proof.
  intros Hactive Hok Hnone Hdismissed.
  search_cases h ed'; simplify_eq; try congruence; cbn;
    repeat first [apply list_elem_of_here|apply list_elem_of_further].
Qed.

(** X7.  What the search handler shows in a panel is always the formatted
    response: html is set only after the server answered with a truthy
    value that [formatSearchResults] turned into that html, and only in a
    panel created just before. *)
Theorem searchDocs_page (h : window_host) (html : string) :
  SetWebviewHtml number html ∈ (searchDocs h).1 →
  ∃ params response before,
    reply number h "roocode/search" params = inr response
    ∧ truthy response = true
    ∧ formatSearchResults_any response = inr html
    ∧ (searchDocs h).1
      = before ++ [CreateWebviewPanel number "roocodeResults"
                     "RooCode Search Results";
                   SetWebviewHtml number html].
Proof.
  search_cases h ed; intros Hin; cbn in Hin; in_trace Hin; simplify_eq.
  - eexists _, response, [_; _; _]. by repeat split.
  - eexists _, response, [_; _]. by repeat split.
Qed.

(** X8.  A truthy response that [formatSearchResults] cannot format, such
    as a response envelope, leaves an opened panel without html and is
    reported as a failed search. *)
Theorem searchDocs_unformattable (h : window_host) (ed : editor)
    (response : value) (e : js_error) :
  active_editor number h = Some ed →
  progress_fails number h = None →
  selected_text ed ≠ EmptyString →
  (∀ params, reply number h "roocode/search" params = inr response) →
  truthy response = true →
  formatSearchResults_any response = inl e →
  (searchDocs h).1
  = [WithProgress number "Searching documentation...";
     SendRequest number "roocode/search"
       (VObj {[ "query" := VStr (selected_text ed) ]});
     CreateWebviewPanel number "roocodeResults" "RooCode Search Results";
     ShowErrorMessage number ("Search failed: " +:+ describe e)].
Proof.
  intros Hactive Hok Hsome Hreply Htrue Hfail.
  unfold Handlers.searchDocs, Handlers.with_progress, Handlers.search_task,
    Handlers.search_query.
  rewrite Hactive, Hok. destruct (selected_text ed) as [|a text]; [done|].
  run_step. rewrite Hreply. run_step. rewrite Htrue. run_step.
  rewrite Hfail. reflexivity.
Qed.

Ltac generate_cases h ed :=
  unfold Handlers.generateDocs;
  destruct (active_editor number h) as [ed|] eqn:Hed; run_step;
  [destruct (selected_text ed) as [|a text] eqn:Hsel; run_step;
   [|destruct (reply number h _ _) as [re|response] eqn:Hreply; run_step;
     [|destruct (truthy response) eqn:Htruthy; run_step;
       [destruct (edit_outcome number h) as [ee|applied] eqn:Hedit;
        run_step|]]]|].

(** X9.  The generate handler never fails: however the request and
    [editor.edit] settle and whatever the server answers, the run ends
    normally, with at most one message shown. *)
Theorem generateDocs_settles (h : window_host) :
  (generateDocs h).2 = inr tt ∧ length (messages number (generateDocs h).1) ≤ 1.
Proof. generate_cases h ed; run_done. Qed.

(** X10.  The generate handler sends at most one request, and never for
    an empty selection: a request is always [roocode/generate] with the
    non-empty selected text as code and the language of the document. *)
Theorem generateDocs_requests (h : window_host) :
  length (requests number (generateDocs h).1) ≤ 1
  ∧ ∀ method params,
      SendRequest number method params ∈ (generateDocs h).1 →
      ∃ ed,
        active_editor number h = Some ed
        ∧ selected_text ed ≠ EmptyString
        ∧ method = "roocode/generate"
        ∧ params = VObj {[ "code" := VStr (selected_text ed);
                           "language" := VStr (language_id ed) ]}.
Proof.
  generate_cases h ed;
    (split; [vm_compute; lia|]; intros m p Hin; cbn in Hin; in_trace Hin;
     simplify_eq; exists ed; by rewrite Hsel).
Qed.

Lemma str_length_app (s t : string) :
  String.length (s +:+ t) = String.length s + String.length t.
Proof.
  induction s as [|a s IH]; [done|].
  rewrite ScriptFacts.str_app_cons. cbn. by rewrite IH.
Qed.

Lemma substring_all (d : string) : String.substring 0 (String.length d) d = d.
Proof. induction d as [|a d IH]; [done|]. cbn. by rewrite IH. Qed.

Lemma substring_skip (s d : string) k m :
  String.substring (String.length s + k) m (s +:+ d) = String.substring k m d.
Proof.
  induction s as [|a s IH]; [done|].
  rewrite ScriptFacts.str_app_cons. cbn. apply IH.
Qed.

Lemma delete_insert (offset : nat) (text doc : string) :
  offset ≤ String.length doc →
  delete_at offset (String.length text) (insert_at offset text doc) = doc.
Proof.
  revert doc. induction offset as [|offset IH]; intros doc Hle.
  - cbn [insert_at delete_at]. rewrite str_length_app.
    replace (String.length text + String.length doc - String.length text)
      with (String.length doc) by lia.
    rewrite <- (Nat.add_0_r (String.length text)) at 1.
    rewrite substring_skip. apply substring_all.
  - destruct doc as [|a doc]; cbn in Hle; [lia|].
    cbn [insert_at delete_at]. rewrite IH; [done|lia].
Qed.

Lemma substring_insert (offset len : nat) (text doc : string) :
  offset ≤ String.length doc →
  String.substring (offset + String.length text) len (insert_at offset text doc)
  = String.substring offset len doc.
Proof.
  revert doc. induction offset as [|offset IH]; intros doc Hle.
  - cbn [insert_at]. rewrite Nat.add_0_l.
    rewrite <- (Nat.add_0_r (String.length text)).
    apply substring_skip.
  - destruct doc as [|a doc]; cbn in Hle; [lia|].
    cbn [insert_at]. cbn. apply IH. lia.
Qed.

(** X11.  The generate handler never loses text of the document.  Either
    the document is as it was, or the server answered with a non-empty
    string that now stands at the start of the selection: deleting it gives
    the old document back, and the selected text follows it unchanged.  The
    text is undetermined only when a truthy answer that is no string was
    handed to [insert] and the host applied it. *)
Theorem generateDocs_document (h : window_host) (ed : editor) :
  active_editor number h = Some ed →
  selection_start ed ≤ String.length (document_text ed) →
  match document_after number h ed (generateDocs h).1 with
  | Some doc' =>
      doc' = document_text ed
      ∨ ∃ params text,
          reply number h "roocode/generate" params = inr (VStr text)
          ∧ text ≠ EmptyString
          ∧ doc' = insert_at (selection_start ed) text (document_text ed)
          ∧ delete_at (selection_start ed) (String.length text) doc'
            = document_text ed
          ∧ String.substring (selection_start ed + String.length text)
              (selection_end ed - selection_start ed) doc'
            = selected_text ed
  | None =>
      ∃ params response,
        reply number h "roocode/generate" params = inr response
        ∧ truthy response = true
        ∧ (∀ text, response ≠ VStr text)
        ∧ edit_outcome number h = inr true
  end.
Proof.
  intros Hactive Hstart.
  generate_cases h ed'; simplify_eq;
    unfold Handlers.document_after; cbn [foldl]; rewrite ?Hedit;
    try (by left).
  - destruct response as [| | | |answer| |]; by left.
  - destruct applied; [|destruct response as [| | | |answer| |]; by left].
    destruct response as [| | | |answer| |]; cbn;
      try (eexists _, _; split; [exact Hreply|]; by repeat split).
    destruct answer as [|c answer]; [done|].
    right. eexists _, (String c answer). split; [exact Hreply|].
    split; [done|]. split; [reflexivity|].
    split; [by apply delete_insert|by apply substring_insert].
Qed.

End CommandsFacts.

(** *** The handlers on the sample host *)

Import HandlerSamples.

Local Abbreviation searchDocs := (Handlers.searchDocs Z fixed shown nonzero described).
Local Abbreviation generateDocs := (Handlers.generateDocs Z nonzero described).

(** Nothing selected, the input box dismissed: the request goes out with
    an undefined query. *)
Lemma searchDocs_dismissed_input_witness :
  Handlers.SendRequest Z "roocode/search"
    (Script.VObj {[ "query" := Script.VUndefined ]})
    ∈ (searchDocs (answering (python_editor 4 4) (Script.VArr []))).1.
Proof.
  apply (searchDocs_dismissed_input Z fixed shown nonzero described
           (answering (python_editor 4 4) (Script.VArr []))
           (python_editor 4 4)); reflexivity.
Defined.

(** [add] selected and an empty array answered: the panel shows the page
    of no results. *)
Lemma searchDocs_page_witness :
  ∃ params response before,
    Handlers.reply Z (answering (python_editor 4 7) (Script.VArr []))
      "roocode/search" params = inr response
    ∧ Script.truthy Z nonzero response = true
    ∧ Script.formatSearchResults_any Z fixed shown response
      = inr (Extension.formatSearchResults Z fixed [])
    ∧ (searchDocs (answering (python_editor 4 7) (Script.VArr []))).1
      = before ++ [Handlers.CreateWebviewPanel Z "roocodeResults"
                     "RooCode Search Results";
                   Handlers.SetWebviewHtml Z
                     (Extension.formatSearchResults Z fixed [])].
Proof.
  apply (searchDocs_page Z fixed shown nonzero described
           (answering (python_editor 4 7) (Script.VArr []))
           (Extension.formatSearchResults Z fixed [])).
  vm_compute. repeat first [apply list_elem_of_here | apply list_elem_of_further].
Defined.

(** [add] selected and the response envelope answered instead of the
    array inside it: the panel is opened and the search reported failed. *)
Lemma searchDocs_unformattable_witness :
  (searchDocs (answering (python_editor 4 7) envelope)).1
  = [Handlers.WithProgress Z "Searching documentation...";
     Handlers.SendRequest Z "roocode/search"
       (Script.VObj {[ "query" := Script.VStr "add" ]});
     Handlers.CreateWebviewPanel Z "roocodeResults" "RooCode Search Results";
     Handlers.ShowErrorMessage Z "Search failed: TypeError: call map"].
Proof.
  apply (searchDocs_unformattable Z fixed shown nonzero described
           (answering (python_editor 4 7) envelope) (python_editor 4 7)
           envelope (Script.TypeError "call map")); try reflexivity.
  discriminate.
Defined.

(** [add] selected and a comment answered: the comment is in front of the
    selection and the rest of the line is as before. *)
Lemma generateDocs_document_witness :
  let h := answering (python_editor 4 7) (Script.VStr "# sum. ") in
  match Handlers.document_after Z h (python_editor 4 7) (generateDocs h).1 with
  | Some doc' =>
      doc' = "def add(a, b): return a + b"
      ∨ ∃ params text,
          Handlers.reply Z h "roocode/generate" params = inr (Script.VStr text)
          ∧ text ≠ EmptyString
          ∧ doc' = Handlers.insert_at 4 text "def add(a, b): return a + b"
          ∧ Handlers.delete_at 4 (String.length text) doc'
            = "def add(a, b): return a + b"
          ∧ String.substring (4 + String.length text) (7 - 4) doc' = "add"
  | None =>
      ∃ params response,
        Handlers.reply Z h "roocode/generate" params = inr response
        ∧ Script.truthy Z nonzero response = true
        ∧ (∀ text, response ≠ Script.VStr text)
        ∧ Handlers.edit_outcome Z h = inr true
  end.
Proof.
  apply (generateDocs_document Z nonzero described
           (answering (python_editor 4 7) (Script.VStr "# sum. "))
           (python_editor 4 7)); [reflexivity | vm_compute; lia].
Defined.

End HandlersFacts.

(** * Activation in full *)

Module ActivationFacts.

Import Extension Activation.

Section ActivateFacts.

Variable describe : Script.js_error → string.

Local Abbreviation activate := (Activation.activate describe).

Local Ltac activate_cases h :=
  destruct h as [[path watcher starts] werr serr refused];
  cbv [Activation.activate Activation.first_failure Activation.try_catch
       Activation.create_watcher Activation.start Activation.register
       Activation.deactivate Extension.deactivate
       Extension.read_client Extension.invoke Extension.assign_client
       Activation.language_client Activation.emit Activation.throw
       Activation.assign Activation.push
       mbind mret Activation.act_mbind Activation.act_mret
       Activation.act_bind Activation.act_ret
       Extension.eff_bind Extension.eff_ret Extension.ebind Extension.eret
       Activation.settings Activation.watcher_error Activation.start_error
       Activation.register_refused Extension.watcher_throws
       Extension.start_rejects];
  destruct watcher, starts,
    (refused "roocode.searchDocs") as [esearch|] eqn:Hsearch,
    (refused "roocode.generateDocs") as [egenerate|] eqn:Hgenerate;
  cbn.


(** X13.  A failed activation is reported once, as the last thing done,
    under the text of the error it rethrows, and hands the context the
    status bar item at most; a successful one shows no error and hands
    over the status bar item and both commands, in this order. *)
Theorem activate_reports (h : host) (st : state) :
  let '(st', t, r) := activate h st in
  match r with
  | inl e =>
      error_messages t
      = [ShowErrorMessage ("Failed to activate RooCode: " +:+ describe e)]
      ∧ last t
        = Some (ShowErrorMessage ("Failed to activate RooCode: " +:+ describe e))
      ∧ (subscriptions st' = subscriptions st
         ∨ subscriptions st' = subscriptions st ++ [StatusBarItem])
  | inr _ =>
      error_messages t = []
      ∧ subscriptions st'
        = subscriptions st ++ [StatusBarItem; Command "roocode.searchDocs";
                               Command "roocode.generateDocs"]
      ∧ registered st'
        = registered st ++ ["roocode.searchDocs"; "roocode.generateDocs"]
  end.
Proof.
  activate_cases h; rewrite <- ?app_assoc; cbn; auto.
Qed.

(** X14.  When the host accepts the first command and refuses the second,
    [activate] throws with [roocode.searchDocs] registered and its
    disposable in nobody's hands: the context holds the status bar item
    only. *)
Theorem activate_leaves_command (h : host) (st : state) (e : Script.js_error) :
  watcher_throws (settings h) = false →
  start_rejects (settings h) = false →
  register_refused h "roocode.searchDocs" = None →
  register_refused h "roocode.generateDocs" = Some e →
  let '(st', t, r) := activate h st in
  r = inl e
  ∧ registered st' = registered st ++ ["roocode.searchDocs"]
  ∧ subscriptions st' = subscriptions st ++ [StatusBarItem].
Proof.
  intros Hw Hs H1 H2. activate_cases h; cbn in *; by simplify_eq.
Qed.

(** X15.  A command is registered only behind a started client: whenever
    [activate] registers anything, the module binding holds the client it
    constructed, [start] was the one client operation and it resolved.
    [activate] itself never stops the client nor sends a request. *)
Theorem activate_registers_behind_client (h : host) (st : state) :
  let '(st', t, _) := activate h st in
  (registered st' = registered st
   ∧ (client_calls t = [] ∨ client_calls t = [CallStart (language_client h)]))
  ∨ (start_rejects (settings h) = false
     ∧ client (binding st') = Some (language_client h)
     ∧ client_calls t = [CallStart (language_client h)]).
Proof.
  activate_cases h; auto.
Qed.

(** X16.  [deactivate] after [activate]: once the watcher was created the
    client [activate] constructed is stopped, also when [start] rejected
    or a command was refused; when the watcher threw, [deactivate] does
    what it would have done before. *)
Theorem activate_then_deactivate (h : host) (st : state) :
  Activation.deactivate (activate h st).1.1
  = if watcher_throws (settings h) then Activation.deactivate st
    else (Some (PromiseOf (CallStop (language_client h))),
          [CallStop (language_client h)]).
Proof.
  activate_cases h; reflexivity.
Qed.

End ActivateFacts.

(** *** [activate] on the sample host *)

Import ActivationSamples.

Lemma activate_leaves_command_witness :
  let '(st', t, r) := Activation.activate HandlerSamples.described
                        generate_taken fresh in
  r = inl (taken "roocode.generateDocs")
  ∧ registered st' = registered fresh ++ ["roocode.searchDocs"]
  ∧ subscriptions st' = subscriptions fresh ++ [StatusBarItem].
Proof.
  apply (activate_leaves_command HandlerSamples.described generate_taken fresh
           (taken "roocode.generateDocs")); reflexivity.
Defined.

End ActivationFacts.

(** * The class around the language client *)

Module ClientWrapperFacts.

Import ClientWrapper.

Section WrapperFacts.

Variable number : Type.

Local Abbreviation perform := (ClientWrapper.perform number).

(** X18.  The request methods of [RooCodeLanguageClient] pass the server's
    answer through: each sends exactly one request, returns what the
    client resolved to or throws what it rejected with, and writes to the
    console exactly when it rejected, once. *)
Theorem perform_transparent (c : language_client number) (q : request number) :
  ∃ method params,
    (perform c q).2 = reply number c method params
    ∧ filter (λ e, is_request number e = true) (perform c q).1
      = [SendRequest number method params]
    ∧ length (filter (λ e, is_console_error number e = true) (perform c q).1)
      = match reply number c method params with inl _ => 1 | inr _ => 0 end
    ∧ match q with
      | SearchDocumentation _ p => method = "roocode/search" ∧ params = p
      | GenerateDocumentation _ p => method = "roocode/generate" ∧ params = p
      | GetSymbolInfo _ _ _ => method = "roocode/symbolInfo"
      | SendCustomRequest _ m p => method = m ∧ params = p
      end.
Proof.
  destruct q as [p|p|symbol context|m p];
    [exists "roocode/search", p | exists "roocode/generate", p
    | exists "roocode/symbolInfo",
        (Script.VObj {[ "symbol" := Script.VStr symbol;
                        "filePath" := Script.VStr (fs_path context);
                        "language" := Script.VStr (language_id context) ]})
    | exists m, p];
    cbn; unfold searchDocumentation, generateDocumentation, getSymbolInfo,
      sendCustomRequest, send_request, try_catch, log_and_rethrow; cbn;
    match goal with |- context [reply number c ?m ?p] =>
      destruct (reply number c m p) end;
    repeat split; vm_compute; reflexivity.
Qed.

End WrapperFacts.

End ClientWrapperFacts.

(** * Debouncing *)

Module DebounceFacts.

Import Debounce.

Section DebouncedFacts.

Variables A T : Type.
Variable func : nat → A → option (Script.js_error + T).
Variable wait : js_number.

Local Abbreviation state := (Debounce.state A T).
Local Abbreviation step := (Debounce.step A T func wait).
Local Abbreviation run_from := (Debounce.run_from A T func wait).
Local Abbreviation run := (Debounce.run A T func wait).
Local Abbreviation calls := (Debounce.calls A).
Local Abbreviation consistent := (Debounce.consistent A T func).
Local Abbreviation dropped := (Debounce.dropped A T).

Lemma run_from_app (st : state) (l1 l2 : list (event A)) :
  run_from st (l1 ++ l2) = run_from (run_from st l1) l2.
Proof. apply foldl_app. Qed.

Lemma calls_app (l1 l2 : list (event A)) :
  calls (l1 ++ l2) = calls l1 ++ calls l2.
Proof. apply omap_app. Qed.

Lemma consistent_settled_lt cs (st : state) p :
  consistent cs st → p ∈ (settled st).*1 → p < length cs.
Proof.
  intros (_ & _ & _ & _ & _ & Hset) ([p' r] & -> & Hin)%list_elem_of_fmap.
  destruct (Hset _ _ Hin) as (t & a & Hlook & _).
  by apply lookup_lt_Some in Hlook.
Qed.

Lemma consistent_initial : consistent [] (initial A T).
Proof.
  split; [|split; [|split; [|split; [|split]]]]; cbn; try done.
  - constructor.
  - by intros p r ?%elem_of_nil.
Qed.

Lemma consistent_step cs (st : state) (ev : event A) :
  consistent cs st → consistent (cs ++ calls [ev]) (step st ev).
Proof.
  intros Hcons.
  pose proof Hcons as (Hn & Hpend & Hnodup & Hlen & Hruns & Hset).
  destruct ev as [a|dt]; cbn.
  - split; [|split; [|split; [|split; [|split]]]]; cbn; try done.
    + rewrite length_app. cbn. lia.
    + intros tm [= <-]. cbn. split.
      * rewrite Hn. by rewrite lookup_app_r, Nat.sub_diag.
      * intros Hin%(consistent_settled_lt cs); [lia|done].
    + rewrite length_app. cbn. destruct (timeout st); cbn in *; lia.
    + intros p r Hin. destruct (Hset _ _ Hin) as (t & a' & Hlook & Hinv & Hr).
      exists t, a'. split; [|done]. by apply lookup_app_l_Some.
  - rewrite app_nil_r. unfold elapse.
    destruct (timeout st) as [tm|] eqn:Htm; [|done].
    destruct (due tm <=? now st + dt); [|by rewrite <- Htm].
    destruct (Hpend tm eq_refl) as [Hlook Hfresh].
    split; [|split; [|split; [|split; [|split]]]]; cbn; try done.
    + destruct (func (now st + dt) (args tm)); [|by rewrite app_nil_r].
      rewrite fmap_app. apply NoDup_app. split; [done|]. split.
      * intros p Hp [->|[]%elem_of_nil]%elem_of_cons. done.
      * cbn. apply NoDup_singleton.
    + rewrite !length_app. destruct (func (now st + dt) (args tm)); cbn; lia.
    + rewrite length_app. cbn in *. lia.
    + intros p r [Hin|Hin]%elem_of_app.
      * destruct (Hset _ _ Hin) as (t & a' & ? & ? & Hr).
        exists t, a'. repeat split; try done. apply elem_of_app. by left.
      * destruct (func (now st + dt) (args tm)) as [outcome|] eqn:Hfunc;
          [|by apply elem_of_nil in Hin].
        apply list_elem_of_singleton in Hin. simplify_eq.
        exists (now st + dt), (args tm). repeat split; try done.
        apply elem_of_app. right. apply list_elem_of_here.
Qed.

Lemma consistent_run_from cs (st : state) (events : list (event A)) :
  consistent cs st → consistent (cs ++ calls events) (run_from st events).
Proof.
  revert cs st. induction events as [|ev events IH]; intros cs st Hcons.
  - by rewrite app_nil_r.
  - change (ev :: events) with ([ev] ++ events).
    rewrite calls_app, app_assoc, run_from_app.
    apply IH. by apply consistent_step.
Qed.

Lemma consistent_run (events : list (event A)) :
  consistent (calls events) (run events).
Proof. apply (consistent_run_from [] _ events), consistent_initial. Qed.

(** X19.  Over any calls and waiting periods, a promise of the debounced
    function settles at most once, and only with the outcome of one run of
    [func] on the arguments of the very call that made the promise; [func]
    runs at most once per call. *)
Theorem run_settles_own_call (events : list (event A)) :
  let st := run events in
  NoDup (settled st).*1
  ∧ length (settled st) ≤ length (invoked st)
  ∧ length (invoked st) ≤ length (calls events)
  ∧ ∀ p r, (p, r) ∈ settled st →
      ∃ t a, calls events !! p = Some a ∧ (t, a) ∈ invoked st
             ∧ func t a = Some r.
Proof.
  pose proof (consistent_run events) as (_ & _ & Hnodup & Hlen & Hruns & Hset).
  cbn. repeat split; try done. lia.
Qed.

Lemma dropped_step id (st : state) (ev : event A) :
  dropped id st → dropped id (step st ev).
Proof.
  intros (Hset & Hpend & Hlt). destruct ev as [a|dt]; cbn.
  - repeat split; cbn; try done; [|lia].
    intros tm [= <-]. cbn. lia.
  - unfold elapse. destruct (timeout st) as [tm|] eqn:Htm; [|done].
    destruct (due tm <=? now st + dt); [|done].
    repeat split; cbn; try done.
    rewrite fmap_app. intros [Hin|Hin]%elem_of_app; [done|].
    destruct (func (now st + dt) (args tm)); [|by apply elem_of_nil in Hin].
    apply list_elem_of_singleton in Hin. cbn in Hin. by apply (Hpend tm).
Qed.

Lemma dropped_run_from id (st : state) (events : list (event A)) :
  dropped id st → dropped id (run_from st events).
Proof.
  revert st. induction events as [|ev events IH]; intros st Hd; [done|].
  cbn. apply IH. by apply dropped_step.
Qed.

(** While less than the wait has passed, the timer stays and nothing
    settles. *)
Lemma quiet_keeps_timer (quiet : list nat) (st : state) tm :
  timeout st = Some tm →
  now st + sum_list quiet < due tm →
  let st' := run_from st (Elapse <$> quiet) in
  timeout st' = Some tm ∧ settled st' = settled st ∧ promises st' = promises st.
Proof.
  revert st. induction quiet as [|dt quiet IH]; intros st Htm Hlt; [done|].
  cbn in *. unfold elapse at 1 2 3. rewrite Htm.
  destruct (due tm <=? now st + dt) eqn:Hdue.
  { apply Nat.leb_le in Hdue. lia. }
  match goal with |- context [foldl _ ?s _] =>
    destruct (IH s) as (H1 & H2 & H3) end; [done|cbn; lia|].
  done.
Qed.

(** X20.  A call that is followed by another call before the delay of its
    timer is over is dropped for good: its promise never settles, neither
    resolved nor rejected, whatever happens afterwards.  The delay is the
    wait where the platform takes it, and 1 ms otherwise. *)
Theorem superseded_never_settles
    (before after : list (event A)) (a b : A) (quiet : list nat) :
  sum_list quiet < delay wait →
  length (calls before)
  ∉ (settled (run (before ++ Call a :: (Elapse <$> quiet)
                     ++ Call b :: after))).*1.
Proof.
  intros Hquiet.
  pose proof (consistent_run before) as Hcons.
  pose proof Hcons as (Hn & _).
  change (Call a :: (Elapse <$> quiet) ++ Call b :: after)
    with ([Call a] ++ (Elapse <$> quiet) ++ [Call b] ++ after).
  unfold Debounce.run in *. rewrite !run_from_app.
  set (s0 := run_from (initial A T) before) in *.
  set (s1 := run_from s0 [Call a]).
  destruct (quiet_keeps_timer quiet s1
              {| due := now s0 + delay wait; args := a; promise := promises s0 |})
    as (Htm & Hset & Hprom); [done|cbn; lia|].
  apply dropped_run_from.
  set (s2 := run_from s1 (Elapse <$> quiet)) in *.
  repeat split; cbn.
  - rewrite Hset. cbn. intros Hin%(consistent_settled_lt (calls before)); [lia|done].
  - intros tm [= <-]. cbn. rewrite Hprom. subst s1. cbn. lia.
  - rewrite Hprom. subst s1. cbn. lia.
Qed.

Lemma settled_step (st : state) (ev : event A) x :
  x ∈ settled st → x ∈ settled (step st ev).
Proof.
  intros Hin. destruct ev as [a|dt]; cbn; [done|].
  unfold elapse. destruct (timeout st) as [tm|]; [|done].
  destruct (due tm <=? now st + dt); [|done].
  cbn. apply elem_of_app. by left.
Qed.

Lemma invoked_step (st : state) (ev : event A) x :
  x ∈ invoked st → x ∈ invoked (step st ev).
Proof.
  intros Hin. destruct ev as [a|dt]; cbn; [done|].
  unfold elapse. destruct (timeout st) as [tm|]; [|done].
  destruct (due tm <=? now st + dt); [|done].
  cbn. apply elem_of_app. by left.
Qed.

Lemma kept_run_from (st : state) (events : list (event A)) x y :
  x ∈ invoked st ∧ (∀ r, y = Some r → r ∈ settled st) →
  x ∈ invoked (run_from st events)
  ∧ (∀ r, y = Some r → r ∈ settled (run_from st events)).
Proof.
  revert st. induction events as [|ev events IH]; intros st [Hx Hy]; [done|].
  cbn. apply IH. split; [by apply invoked_step|].
  intros r Hr. by apply settled_step, Hy.
Qed.

(** Once the delay has passed, the timer has fired, at the first turn of
    the event loop at which it was due. *)
Lemma timer_fires (quiet : list nat) (dt : nat) (st : state) tm :
  timeout st = Some tm →
  now st ≤ due tm →
  due tm ≤ now st + dt + sum_list quiet →
  let st' := run_from st (Elapse dt :: (Elapse <$> quiet)) in
  ∃ t, due tm ≤ t ≤ now st + dt + sum_list quiet
       ∧ (t, args tm) ∈ invoked st'
       ∧ ∀ r, (λ outcome, (promise tm, outcome)) <$> func t (args tm) = Some r →
              r ∈ settled st'.
Proof.
  revert dt st. induction quiet as [|q quiet IH]; intros dt st Htm Hnow Hdue.
  - cbn in *. unfold elapse. rewrite Htm.
    destruct (due tm <=? now st + dt) eqn:Hle.
    + apply Nat.leb_le in Hle. exists (now st + dt). split; [lia|].
      cbn. split; [apply elem_of_app; right; apply list_elem_of_here|].
      intros r Hr. apply elem_of_app. right.
      destruct (func (now st + dt) (args tm)); simplify_eq/=.
      apply list_elem_of_here.
    + apply Nat.leb_gt in Hle. lia.
  - change (run_from st (Elapse dt :: (Elapse <$> q :: quiet)))
      with (run_from (elapse A T func dt st) (Elapse q :: (Elapse <$> quiet))).
    unfold elapse. rewrite Htm.
    destruct (due tm <=? now st + dt) eqn:Hle.
    + apply Nat.leb_le in Hle. exists (now st + dt). split; [cbn; lia|].
      apply kept_run_from. cbn.
      split; [apply elem_of_app; right; apply list_elem_of_here|].
      intros r Hr. apply elem_of_app. right.
      destruct (func (now st + dt) (args tm)); simplify_eq/=.
      apply list_elem_of_here.
    + apply Nat.leb_gt in Hle.
      match goal with |- context [run_from ?s _] =>
        destruct (IH q s) as (t & Ht & Hinv & Hset) end;
        [done|cbn; lia|cbn in *; lia|].
      exists t. split; [cbn in *; lia|]. by split.
Qed.

(** X21.  A call that is left alone for the delay of its timer goes
    through: once at least the delay has passed without another call,
    [func] has run on its arguments, not before the timer was due and not
    after the pause, and the promise of the call has settled as the promise
    of [func] does, for good.  The delay is the wait where the platform
    takes it, and 1 ms otherwise. *)
Theorem quiet_call_settles
    (before after : list (event A)) (a : A) (dt : nat) (quiet : list nat) :
  delay wait ≤ dt + sum_list quiet →
  let called := now (run before) in
  let st := run (before ++ Call a :: Elapse dt :: (Elapse <$> quiet)
                   ++ after) in
  ∃ t, called + delay wait ≤ t ≤ called + dt + sum_list quiet
       ∧ (t, a) ∈ invoked st
       ∧ ∀ outcome, func t a = Some outcome →
                    (length (calls before), outcome) ∈ settled st.
Proof.
  intros Hwait called st. subst called st.
  pose proof (consistent_run before) as (Hn & _).
  change (Call a :: Elapse dt :: (Elapse <$> quiet) ++ after)
    with ([Call a] ++ (Elapse dt :: (Elapse <$> quiet)) ++ after).
  unfold Debounce.run in *. rewrite !run_from_app.
  set (s0 := run_from (initial A T) before) in *.
  destruct (timer_fires quiet dt (run_from s0 [Call a])
              {| due := now s0 + delay wait; args := a; promise := promises s0 |})
    as (t & Ht & Hinv & Hset); [done|cbn; lia|cbn; lia|].
  cbn in Ht, Hinv, Hset.
  destruct (kept_run_from
              (run_from (run_from s0 [Call a]) (Elapse dt :: (Elapse <$> quiet)))
              after (t, a)
              ((λ outcome, (promises s0, outcome)) <$> func t a))
    as [Hinv' Hset']; [by split|].
  exists t. split; [done|]. split; [done|].
  intros outcome Hfunc. apply Hset'. rewrite Hfunc, <- Hn. done.
Qed.

End DebouncedFacts.

(** *** The debounced sample lookup *)

Import DebounceSamples.

(** The clamp at work: no wait and too long a wait are both 1 ms. *)
Example delay_clamped :
  delay none = 1 ∧ delay too_long = 1 ∧ delay half_second = 500.
Proof. vm_compute. done. Qed.

(** Debounced with no wait, typing [ro] in the same turn as [r]: the timer
    of the first call is cleared before it can run, and its promise stays
    unsettled however long one waits. *)
Lemma superseded_never_settles_witness :
  0 ∉ (settled (Debounce.run string nat lookup none
                  ([] ++ Call "r" :: (Elapse <$> [0])
                   ++ Call "ro" :: [Elapse 1000]))).*1.
Proof.
  apply (superseded_never_settles string nat lookup none
           [] [Elapse 1000] "r" "ro" [0]).
  vm_compute. lia.
Defined.

(** Debounced by half a second, typing [roo] and pausing for 600 ms: the
    lookup has run, between 500 and 600 ms, and its answer is the answer
    of the call. *)
Lemma quiet_call_settles_witness :
  let st := Debounce.run string nat lookup half_second
              ([] ++ Call "roo" :: Elapse 300 :: (Elapse <$> [300]) ++ []) in
  ∃ t, 0 + 500 ≤ t ≤ 0 + 300 + 300
       ∧ (t, "roo") ∈ invoked st
       ∧ ∀ outcome, lookup t "roo" = Some outcome → (0, outcome) ∈ settled st.
Proof.
  apply (quiet_call_settles string nat lookup half_second
           [] [] "roo" 300 [300]).
  vm_compute. lia.
Defined.

(** Debounced by more than the platform takes, a pause of 1 ms is enough. *)
Example too_long_runs_at_once :
  settled (Debounce.run string nat lookup too_long [Call "roo"; Elapse 1])
  = [(0, inr 3)].
Proof. vm_compute. reflexivity. Qed.

End DebounceFacts.
